(** * vtoolbox.mdof: eigen-sorting, undamped modes and free response

    A shallow embedding of [src/vtoolbox/mdof.py].

    Numbers.  The program computes with IEEE doubles.  Finite doubles are
    dyadic rationals and their comparisons ([==], [>], the order used by
    [argsort]) coincide with those of [Q], so array entries are modelled as
    rationals (exact arithmetic, no NaN, no infinities).  A complex
    eigenvalue is a pair of rationals.  The one place where rounding decides
    a discrete result is the sample count [int(250 * max_time)]: there the
    argument is a binary64 number and the product is rounded to binary64
    (to nearest, ties to even, infinite on overflow) before it is truncated.

    Arrays.  A 1-D array is a [list]; a 2-D array is the list of its rows.
    A 2-D array without rows therefore carries no column count.

    Exceptions.  A Python exception aborts the call; functions that can
    raise return a [result].

    Library routines.  [scipy.linalg.eig], [cholesky], [inv], [pinv], [expm]
    and [ndarray.argsort] are not part of the repository; they are taken as
    parameters, and what the proofs need of their documented behaviour is
    stated as a hypothesis on the call at hand. *)

From Stdlib Require Import List ZArith QArith Qround Bool Lia Arith.
From Stdlib Require Import Permutation Sorted Morphisms Qabs Lqa.
Import ListNotations.

Set Implicit Arguments.
Close Scope Q_scope.

(** ** Exceptions *)

Inductive pyerror : Type :=
| IndexError
| ValueError
| LinAlgError
| OverflowError.

Inductive result (A : Type) : Type :=
| Ok (a : A)
| Raise (e : pyerror).

Arguments Ok {A} a.
Arguments Raise {A} e.

Definition bind {A B : Type} (m : result A) (k : A -> result B) : result B :=
  match m with
  | Ok a => k a
  | Raise e => Raise e
  end.

Notation "x <- m ;; k" := (bind m (fun x => k))
  (at level 61, m at next level, right associativity).
Notation "' pat <- m ;; k" := (bind m (fun x => match x with pat => k end))
  (at level 61, pat pattern, m at next level, right associativity).

Fixpoint mapM {A B : Type} (f : A -> result B) (l : list A) : result (list B) :=
  match l with
  | [] => Ok []
  | a :: l' => b <- f a ;; bs <- mapM f l' ;; Ok (b :: bs)
  end.

(** [for i in l: s = body(i, s)] *)
Fixpoint for_each {S : Type} (l : list nat) (body : nat -> S -> result S) (s : S)
  : result S :=
  match l with
  | [] => Ok s
  | i :: l' => s' <- body i s ;; for_each l' body s'
  end.

(** ** Indexing and slicing *)

(** [a[i]] for [0 <= i]. *)
Definition getitem {A : Type} (a : list A) (i : nat) : result A :=
  match nth_error a i with
  | Some x => Ok x
  | None => Raise IndexError
  end.

(** [a[idx]] for an integer index array [idx] without negative entries. *)
Definition take {A : Type} (a : list A) (idx : list nat) : result (list A) :=
  mapM (getitem a) idx.

(** [V[:, idx]] *)
Definition take_cols {A : Type} (V : list (list A)) (idx : list nat)
  : result (list (list A)) :=
  mapM (fun row => take row idx) V.

(** [a[start:]]: a negative [start] counts from the end; the bounds are
    clipped to the array. *)
Definition slice_from {A : Type} (a : list A) (start : Z) : list A :=
  let len := Z.of_nat (length a) in
  let s := if (start <? 0)%Z then Z.max 0 (start + len)%Z else Z.min start len in
  skipn (Z.to_nat s) a.

(** [a[start::-1]]: the elements at [start], [start - 1], ..., [0].  A
    negative [start] counts from the end, so [a[-1::-1]] is the whole of [a]
    reversed. *)
Definition slice_down_from {A : Type} (a : list A) (start : Z) : list A :=
  let len := Z.of_nat (length a) in
  let s := if (start <? 0)%Z then (start + len)%Z else start in
  if (s <? 0)%Z then []
  else rev (firstn (Z.to_nat (Z.min s (len - 1) + 1)%Z) a).

(** ** Complex eigenvalues *)

Record complex : Type := mkC { re : Q; im : Q }.

Definition Qlt_bool (x y : Q) : bool := negb (Qle_bool y x).

(** ** [ndarray.argsort]

    The default sort kind is not stable, so nothing is assumed about the
    order of equal keys: an index array is an argsort of [keys] when it
    lists every position once and the keys it selects do not decrease. *)

Definition key_at (keys : list Q) (i : nat) : Q := nth i keys 0%Q.

Definition is_argsort (keys : list Q) (idx : list nat) : Prop :=
  Permutation idx (seq 0 (length keys)) /\
  StronglySorted Qle (map (key_at keys) idx).

(** An argsort by insertion, to run the model on concrete arrays. *)
Fixpoint insert_index (keys : list Q) (i : nat) (l : list nat) : list nat :=
  match l with
  | [] => [i]
  | j :: l' =>
      if Qle_bool (key_at keys i) (key_at keys j) then i :: l
      else j :: insert_index keys i l'
  end.

Definition argsort_insertion (keys : list Q) : list nat :=
  fold_right (insert_index keys) [] (seq 0 (length keys)).

(** ** [eigen] *)

Section Eigen.

(** The entries of the eigenvector matrix are only moved around. *)
Variable F : Type.

Definition matrix : Type := list (list F).

(** [la.eig(A)] when the second argument is [None], [la.eig(A, B)]
    otherwise; it returns the eigenvalues and the matrix whose columns are
    the eigenvectors. *)
Variable la_eig : matrix -> option matrix -> result (list complex * matrix).
Variable argsort : list Q -> list nat.

(** [all(eigs == 0 for eigs in evalues.imag)] *)
Definition all_imag_zero (evalues : list complex) : bool :=
  forallb (fun z => Qeq_bool (im z) 0%Q) evalues.

(** [all(eigs > 0 for eigs in evalues.real)] *)
Definition all_real_positive (evalues : list complex) : bool :=
  forallb (fun z => Qlt_bool 0%Q (re z)) evalues.

(** [int(len(evalues)/2)] *)
Definition half (evalues : list complex) : Z :=
  (Z.of_nat (length evalues) / 2)%Z.

(** [idxp] and [idxn] of the two split branches, for the keys ranked. *)
Definition split_index (keys : list Q) (h : Z) : list nat * list nat :=
  (slice_from (argsort keys) h, slice_down_from (argsort keys) (h - 1)%Z).

(** The pair [(idxp, idxn)]. *)
Definition eigen_blocks (evalues : list complex) : list nat * list nat :=
  if all_imag_zero evalues then
    if all_real_positive evalues then
      (argsort (map re evalues), [])
    else
      split_index (map re evalues) (half evalues)
  else
    split_index (map im evalues) (half evalues).

(** [idx = sp.hstack([idxp, idxn])] *)
Definition eigen_index (evalues : list complex) : list nat :=
  let '(idxp, idxn) := eigen_blocks evalues in idxp ++ idxn.

(** The reordering of a raw decomposition (lines 47 to 61). *)
Definition eigen_sort (evalues : list complex) (evectors : matrix)
  : result (list complex * matrix) :=
  let idx := eigen_index evalues in
  vals <- take evalues idx ;;
  vecs <- take_cols evectors idx ;;
  Ok (vals, vecs).

Definition eigen (A : matrix) (B : option matrix)
  : result (list complex * matrix) :=
  '(evalues, evectors) <-
     match B with
     | None => la_eig A None
     | Some b => la_eig A (Some b)
     end ;;
  eigen_sort evalues evectors.

End Eigen.

Arguments matrix F : clear implicits.

(** ** Dense arrays over a scalar type *)

Class Scalar (F : Type) : Type := {
  s_zero : F;
  s_one : F;
  s_add : F -> F -> F;
  s_mul : F -> F -> F;
  s_opp : F -> F
}.

#[export] Instance Scalar_Q : Scalar Q := {
  s_zero := 0%Q;
  s_one := 1%Q;
  s_add := Qplus;
  s_mul := Qmult;
  s_opp := Qopp
}.

Section Arrays.

Context {F : Type} `{Scalar F}.

(** [len(A)], the number of rows. *)
Definition nrows (A : matrix F) : nat := length A.

Definition ncols (A : matrix F) : nat :=
  match A with
  | [] => 0
  | row :: _ => length row
  end.

(** [A] has [r] rows of [c] entries each. *)
Definition has_shape (r c : nat) (A : matrix F) : Prop :=
  length A = r /\ Forall (fun row => length row = c) A.

(** [sp.zeros((r, c))] *)
Definition zeros (r c : nat) : matrix F := repeat (repeat s_zero c) r.

(** [sp.eye(r, c)] *)
Definition eye (r c : nat) : matrix F :=
  map (fun i => map (fun j => if Nat.eqb i j then s_one else s_zero) (seq 0 c))
      (seq 0 r).

(** [A[:, j]] of a rectangular array, read without bound check. *)
Definition column (A : matrix F) (j : nat) : list F :=
  map (fun row => nth j row s_zero) A.

(** [A.T] *)
Definition transpose (A : matrix F) : matrix F :=
  map (column A) (seq 0 (ncols A)).

Definition dot (u v : list F) : F :=
  fold_right s_add s_zero (map (fun p => s_mul (fst p) (snd p)) (combine u v)).

(** [A @ x] for a 1-D [x]; the lengths must agree. *)
Definition matvec (A : matrix F) (x : list F) : result (list F) :=
  if forallb (fun row => Nat.eqb (length row) (length x)) A
  then Ok (map (fun row => dot row x) A)
  else Raise ValueError.

(** [A @ B]; the rows of [A] must be as long as [B] has rows. *)
Definition matmul (A B : matrix F) : result (matrix F) :=
  if forallb (fun row => Nat.eqb (length row) (length B)) A
  then Ok (map (fun row => map (dot row) (transpose B)) A)
  else Raise ValueError.

(** [-A] *)
Definition mopp (A : matrix F) : matrix F := map (map s_opp) A.

(** [A * c] for a scalar [c] *)
Definition mscale (A : matrix F) (c : F) : matrix F :=
  map (map (fun a => s_mul a c)) A.

(** [sp.hstack([A, B])] of two 2-D arrays: equally many rows. *)
Definition hstack (A B : matrix F) : result (matrix F) :=
  if Nat.eqb (length A) (length B)
  then Ok (map (fun p => fst p ++ snd p) (combine A B))
  else Raise ValueError.

(** [sp.vstack([A, B])]: rows of one length. *)
Definition vstack (A B : matrix F) : result (matrix F) :=
  if forallb (fun row => Nat.eqb (length row) (ncols (A ++ B))) (A ++ B)
  then Ok (A ++ B)
  else Raise ValueError.

(** [X[:, j]] *)
Definition get_col (X : matrix F) (j : nat) : result (list F) :=
  mapM (fun row => getitem row j) X.

Definition set_nth (row : list F) (j : nat) (x : F) : list F :=
  firstn j row ++ x :: skipn (S j) row.

(** Entry [j] of row [i] becomes [v[i]]. *)
Definition assign_col (X : matrix F) (j : nat) (v : list F) : matrix F :=
  map (fun p => set_nth (fst p) j (snd p)) (combine X v).

(** [X[:, j] = v]: [v] has one entry per row, or a single entry that is
    broadcast to every row. *)
Definition set_col (X : matrix F) (j : nat) (v : list F) : result (matrix F) :=
  if negb (forallb (fun row => Nat.ltb j (length row)) X) then Raise IndexError
  else if Nat.eqb (length v) (length X)
  then Ok (assign_col X j v)
  else if Nat.eqb (length v) 1
  then Ok (map (fun row => set_nth row j (hd s_zero v)) X)
  else Raise ValueError.

End Arrays.

(** ** [modes_system_undamped] *)

Section Modes.

(** The entries of all arrays, after numpy's type promotion: real when the
    eigenvectors are real, complex otherwise. *)
Context {F : Type} `{Scalar F}.

Variable la_eig : matrix F -> option (matrix F) -> result (list complex * matrix F).
Variable argsort : list Q -> list nat.
(** [la.cholesky(a, lower)]; scipy's default is [lower=False], the
    upper-triangular factor [U] with [a = U.T @ U]. *)
Variable la_cholesky : matrix F -> bool -> result (matrix F).
Variable la_inv : matrix F -> result (matrix F).

(** The local variables of the function when it returns. *)
Record modes_locals : Type := {
  loc_L : matrix F;
  loc_Linv : matrix F;
  loc_lam : list complex;
  loc_P : matrix F;
  loc_S : matrix F;
  loc_Sinv : matrix F
}.

Definition modes_body (M K : matrix F) : result modes_locals :=
  L <- la_cholesky M false ;;
  Linv <- la_inv L ;;
  LinvK <- matmul Linv K ;;
  W <- matmul LinvK (transpose Linv) ;;
  '(lam, P) <- eigen la_eig argsort W None ;;
  S <- matmul Linv P ;;
  Sinv <- matmul (transpose P) Linv ;;
  Ok {| loc_L := L; loc_Linv := Linv; loc_lam := lam; loc_P := P;
        loc_S := S; loc_Sinv := Sinv |}.

Definition modes_system_undamped (M K : matrix F)
  : result (list complex * matrix F * matrix F * matrix F) :=
  loc <- modes_body M K ;;
  Ok (loc_lam loc, loc_P loc, loc_S loc, loc_Sinv loc).

End Modes.

(** ** Binary64 numbers and the product [250 * max_time] *)

(** [2 ^ e] for an integer [e]. *)
Definition pow2 (e : Z) : Q :=
  match e with
  | Z0 => 1%Q
  | Zpos p => inject_Z (2 ^ Zpos p)
  | Zneg p => (1 # (2 ^ p))%Q
  end.

(** A finite binary64 number: [mantissa * 2 ^ exponent] with a mantissa of at
    most 53 bits and an exponent between [-1074] and [971].  The sign is that
    of the mantissa; NaN and the infinities are not arguments of the
    model. *)
Record binary64 : Type := {
  mantissa : Z;
  exponent : Z;
  binary64_bounded :
    ((Z.abs mantissa <? 2 ^ 53)%Z && (-1074 <=? exponent)%Z
     && (exponent <=? 971)%Z) = true
}.

(** The value of a binary64 number. *)
Definition B2Q (d : binary64) : Q :=
  (inject_Z (mantissa d) * pow2 (exponent d))%Q.

(** The result of a binary64 operation on finite arguments: a finite value,
    or an infinity when the rounded result overflows. *)
Inductive float_value : Type :=
| Finite (q : Q)
| Infinite (negative : bool).

(** The nearest integer, ties to even. *)
Definition nearest_even (q : Q) : Z :=
  let f := Qfloor q in
  let r := (q - inject_Z f)%Q in
  if Qlt_bool r (1 # 2) then f
  else if Qlt_bool (1 # 2) r then (f + 1)%Z
  else if Z.even f then f else (f + 1)%Z.

(** The [e] with [2 ^ e <= x < 2 ^ (e + 1)], for [0 < x]. *)
Definition floor_log2 (x : Q) : Z :=
  let l := (Z.log2 (Qnum x) - Z.log2 (Zpos (Qden x)))%Z in
  if Qle_bool (pow2 l) x then l else (l - 1)%Z.

(** Rounding of a real to binary64, to nearest, ties to even: the result is a
    multiple of [2 ^ e], where [e] is [52] below the binary exponent of [x]
    and at least [-1074] (subnormal numbers); a magnitude of [2 ^ 1024] or
    more after rounding is an overflow. *)
Definition round_binary64 (x : Q) : float_value :=
  if Qeq_bool x 0 then Finite 0
  else
    let e := Z.max (floor_log2 (Qabs x) - 52) (-1074) in
    let y := (inject_Z (nearest_even (x / pow2 e)) * pow2 e)%Q in
    if Qle_bool (pow2 1024) (Qabs y) then Infinite (Qlt_bool x 0)
    else Finite y.

(** [a * b] on doubles: the exact product, rounded. *)
Definition float_mul (a b : Q) : float_value := round_binary64 (a * b).

(** [int(x)] truncates a finite value toward zero. *)
Definition int_of_Q (q : Q) : Z := Z.quot (Qnum q) (Zpos (Qden q)).

(** [int(x)] of a float: an infinity raises [OverflowError]. *)
Definition py_int (x : float_value) : result Z :=
  match x with
  | Finite q => Ok (int_of_Q q)
  | Infinite _ => Raise OverflowError
  end.

(** The number of time samples, [int(250 * max_time)], for [max_time] a
    float as documented.  (An [int] argument, as in the docstring example,
    is multiplied exactly; below [2 ^ 53 / 250] the count is that of the
    float of the same value.) *)
Definition sample_count (max_time : binary64) : result Z :=
  py_int (float_mul 250 (B2Q max_time)).

(** ** [response_system_undamped] *)

(** [y[-1] = stop] *)
Definition set_last (y : list Q) (stop : Q) : list Q := removelast y ++ [stop].

(** [sp.linspace(start, stop, num)] with the end point included. *)
Definition linspace (start stop : Q) (num : Z) : result (list Q) :=
  if (num <? 0)%Z then Raise ValueError
  else
    let delta := (stop - start)%Q in
    let y := map (fun i => inject_Z (Z.of_nat i)) (seq 0 (Z.to_nat num)) in
    if (1 <? num)%Z then
      let step := (delta / inject_Z (num - 1))%Q in
      Ok (set_last (map (fun yi => yi * step + start)%Q y) stop)
    else
      Ok (map (fun yi => yi * delta + start)%Q y).

Section Response.

Variable la_pinv : matrix Q -> result (matrix Q).
Variable la_expm : matrix Q -> result (matrix Q).

(** The body of the time-stepping loop. *)
Definition step_column (Ad : matrix Q) (i : nat) (X : matrix Q)
  : result (matrix Q) :=
  Xi <- get_col X i ;;
  y <- matvec Ad Xi ;;
  set_col X (i + 1) y.

(** The state-space matrix [A] of lines 160 and 161. *)
Definition state_matrix (M K : matrix Q) : result (matrix Q) :=
  let n := nrows M in
  let Z := zeros n n in
  let I := eye n n in
  top <- hstack Z I ;;
  Mp <- la_pinv M ;;
  MpK <- matmul (mopp Mp) K ;;
  bottom <- hstack MpK Z ;;
  vstack top bottom.

(** The function from the call of [linspace] on, for the end time
    [max_time] and the sample count [num] (lines 151 to 172). *)
Definition response_on_grid (M K : matrix Q) (x0 v0 : list Q)
  (max_time : Q) (num : Z) : result (list Q * matrix Q) :=
  t <- linspace 0 max_time num ;;
  t1 <- getitem t 1 ;;
  t0 <- getitem t 0 ;;
  let dt := (t1 - t0)%Q in
  let n := nrows M in
  A <- state_matrix M K ;;
  let X := zeros (2 * n) (length t) in
  X <- set_col X 0 (x0 ++ v0) ;;
  Ad <- la_expm (mscale A dt) ;;
  X <- for_each (seq 0 (length t - 1)) (step_column Ad) X ;;
  Ok (t, X).

(** The arguments of [linspace] are evaluated first: [int(250 * max_time)]
    can raise before any array is built. *)
Definition response_system_undamped (M K : matrix Q) (x0 v0 : list Q)
  (max_time : binary64) : result (list Q * matrix Q) :=
  num <- sample_count max_time ;;
  response_on_grid M K x0 v0 (B2Q max_time) num.

End Response.

(** ** Notions used to state the properties

    [spec_split_by_half] and [spec_round] follow the words of the
    specification; the others name parts of the computation. *)

(** The eigenvalues ranked by [key], in the order an argsort gives. *)
Definition ranked (argsort : list Q -> list nat) (key : complex -> Q)
  (evalues : list complex) : list complex :=
  map (fun i => nth i evalues (mkC 0 0)) (argsort (map key evalues)).

(** Split by half: with [h = n / 2] (integer division), the upper part of
    the ranking (all but its first [h] entries) in ascending order, followed
    by the lower part (its first [h] entries) in descending order. *)
Definition spec_split_by_half (ranking : list complex) : list complex :=
  let h := Nat.div (length ranking) 2 in
  skipn h ranking ++ rev (firstn h ranking).

(** Rounding to the nearest integer, ties to even, as Python's [round]. *)
Definition spec_round (q : Q) : Z :=
  let f := Qfloor q in
  let r := (q - inject_Z f)%Q in
  if Qlt_bool r (1 # 2) then f
  else if Qlt_bool (1 # 2) r then (f + 1)%Z
  else if Z.even f then f else (f + 1)%Z.

(** The block array [[a, b], [c, d]]. *)
Definition block2x2 (a b c d : matrix Q) : matrix Q :=
  map (fun p => fst p ++ snd p) (combine a b) ++
  map (fun p => fst p ++ snd p) (combine c d).

(** [Ad] applied [k] times to a state vector. *)
Definition apply_times (Ad : matrix Q) (k : nat) (x : list Q) : list Q :=
  Nat.iter k (fun y => map (fun row => dot row y) Ad) x.

(** The loop invariant: after the iterations [0 .. k - 1] the array of [r]
    rows and [N] columns holds the first [k + 1] iterates in its columns
    [0 .. k]. *)
Definition columns_upto (Ad : matrix Q) (x : list Q) (r N k : nat)
  (X : matrix Q) : Prop :=
  has_shape r N X /\
  forall j, j <= k -> column X j = apply_times Ad j x.

(** Triangular shape and the two Cholesky conventions, over [Q]. *)
Definition entry (A : matrix Q) (i j : nat) : Q := nth j (nth i A []) 0%Q.

Definition meqb (A B : matrix Q) : bool :=
  Nat.eqb (length A) (length B) &&
  forallb (fun p => Nat.eqb (length (fst p)) (length (snd p)) &&
                    forallb (fun q => Qeq_bool (fst q) (snd q))
                            (combine (fst p) (snd p)))
          (combine A B).

Definition upper_triangular (A : matrix Q) : bool :=
  forallb (fun i => forallb (fun j => Qeq_bool (entry A i j) 0) (seq 0 i))
          (seq 0 (length A)).

Definition lower_triangular (A : matrix Q) : bool :=
  upper_triangular (transpose A).

(** The total product of two arrays over [Q] whose shapes agree. *)
Definition mprod (A B : matrix Q) : matrix Q :=
  map (fun row => map (dot row) (transpose B)) A.

(** [U] is the upper factor of [M]: [M = U.T @ U]. *)
Definition is_upper_factor (U M : matrix Q) : bool :=
  upper_triangular U && meqb (mprod (transpose U) U) M.

(** [L] is the lower factor of [M]: [M = L @ L.T]. *)
Definition is_lower_factor (L M : matrix Q) : bool :=
  lower_triangular L && meqb (mprod L (transpose L)) M.

(** ** Library answers on concrete inputs

    To run the model, a library routine is replaced by its answer on the
    one input it is called with; on any other input it raises. *)

Definition answer_at {R : Type} (A0 : matrix Q) (r : R) (A : matrix Q) : result R :=
  if meqb A A0 then Ok r else Raise LinAlgError.

Definition eig_answer_at (A0 : matrix Q) (r : list complex * matrix Q)
  (A : matrix Q) (B : option (matrix Q)) : result (list complex * matrix Q) :=
  match B with
  | None => answer_at A0 r A
  | Some _ => Raise LinAlgError
  end.

Definition cholesky_answer_at (M0 U0 : matrix Q) (M : matrix Q) (lower : bool)
  : result (matrix Q) :=
  if lower then Raise LinAlgError else answer_at M0 U0 M.

(** The exponential of a matrix with [X @ X = 0] is [I + X]. *)
Definition expm_square_zero (X : matrix Q) : result (matrix Q) :=
  if meqb (mprod X X) (zeros (length X) (length X))
  then Ok (map (fun p => map (fun q => fst q + snd q)%Q (combine (fst p) (snd p)))
               (combine (eye (length X) (length X)) X))
  else Raise LinAlgError.

(** The pseudo-inverse of the identity is the identity. *)
Definition pinv_identity (M : matrix Q) : result (matrix Q) :=
  if meqb M (eye (length M) (length M)) then Ok M else Raise LinAlgError.

(** ** Binary64 numbers used in the examples

    The doubles that Python writes [0.015], [0.036], [-0.01] and [-1e308],
    and the largest double below [0.008]. *)

Definition double_0_015 : binary64 :=
  {| mantissa := 1080863910568919; exponent := -56;
     binary64_bounded := eq_refl |}.

Definition double_0_036 : binary64 :=
  {| mantissa := 5188146770730811; exponent := -57;
     binary64_bounded := eq_refl |}.

Definition double_below_0_008 : binary64 :=
  {| mantissa := 4611686018427387; exponent := -59;
     binary64_bounded := eq_refl |}.

Definition double_m0_01 : binary64 :=
  {| mantissa := -5764607523034235; exponent := -59;
     binary64_bounded := eq_refl |}.

Definition double_m1e308 : binary64 :=
  {| mantissa := -5010420900022432; exponent := 971;
     binary64_bounded := eq_refl |}.

Definition real (x : Q) : complex := mkC x 0.

(** [K - lam * M], entry by entry, and the determinant of a 2 x 2 array:
    [lam] is an eigenvalue of the system [(M, K)] when [K - lam * M] is
    singular. *)
Definition pencil (K M : matrix Q) (lam : Q) : matrix Q :=
  map (fun p => map (fun q => (fst q - lam * snd q)%Q) (combine (fst p) (snd p)))
      (combine K M).

Definition det2 (A : matrix Q) : Q :=
  (entry A 0 0 * entry A 1 1 - entry A 0 1 * entry A 1 0)%Q.

(** ** Notions for the properties of the ordering *)

(** The part of an eigenvalue that [eigen] ranks by: the real part when all
    imaginary parts are zero, the imaginary part otherwise. *)
Definition sort_key (evalues : list complex) : complex -> Q :=
  if all_imag_zero evalues then re else im.

Definition conjugate (z : complex) : complex := mkC (re z) (- im z).

(** The number of entries of [l] strictly below [v]. *)
Definition count_below (v : Q) (l : list Q) : nat :=
  length (filter (fun x => Qlt_bool x v) l).

(** * Properties *)

Unset Implicit Arguments.

(** ** Indexing and slicing *)

Lemma mapM_ok {A B : Type} (f : A -> result B) (g : A -> B) (l : list A) :
  (forall a, In a l -> f a = Ok (g a)) -> mapM f l = Ok (map g l).
Proof.
  induction l as [|a l IH]; intros Hf; simpl.
  - reflexivity.
  - rewrite (Hf a (or_introl eq_refl)). simpl.
    rewrite IH by (intros b Hb; apply Hf; now right).
    reflexivity.
Qed.

Lemma getitem_nth {A : Type} (a : list A) (i : nat) (d : A) :
  i < length a -> getitem a i = Ok (nth i a d).
Proof.
  intros Hi. unfold getitem.
  destruct (nth_error a i) as [x|] eqn:E.
  - now rewrite (nth_error_nth _ _ d E).
  - apply nth_error_None in E. lia.
Qed.

Lemma getitem_out {A : Type} (a : list A) (i : nat) :
  length a <= i -> getitem a i = Raise IndexError.
Proof.
  intros Hi. unfold getitem.
  now rewrite (proj2 (nth_error_None a i) Hi).
Qed.

Lemma take_ok {A : Type} (a : list A) (idx : list nat) (d : A) :
  Forall (fun i => i < length a) idx ->
  take a idx = Ok (map (fun i => nth i a d) idx).
Proof.
  intros Hidx. apply mapM_ok. intros i Hi.
  apply getitem_nth. rewrite Forall_forall in Hidx. now apply Hidx.
Qed.

Lemma take_cols_ok {A : Type} (V : list (list A)) (idx : list nat) (d : A) (n : nat) :
  Forall (fun row => length row = n) V ->
  Forall (fun i => i < n) idx ->
  take_cols V idx = Ok (map (fun row => map (fun i => nth i row d) idx) V).
Proof.
  intros HV Hidx. apply mapM_ok. intros row Hrow.
  apply take_ok. rewrite Forall_forall in HV. now rewrite (HV row Hrow).
Qed.

Lemma slice_from_nat {A : Type} (a : list A) (h : nat) :
  h <= length a -> slice_from a (Z.of_nat h) = skipn h a.
Proof.
  intros Hh. unfold slice_from.
  destruct (Z.ltb_spec (Z.of_nat h) 0) as [Hneg|_]; [lia|].
  rewrite Z.min_l by lia. now rewrite Nat2Z.id.
Qed.

Lemma slice_down_from_pred {A : Type} (a : list A) (h : nat) :
  1 <= h <= length a ->
  slice_down_from a (Z.of_nat h - 1) = rev (firstn h a).
Proof.
  intros Hh. unfold slice_down_from.
  destruct (Z.ltb_spec (Z.of_nat h - 1) 0) as [Hneg|_]; [lia|].
  destruct (Z.ltb_spec (Z.of_nat h - 1) 0) as [Hneg|_]; [lia|].
  rewrite Z.min_l by lia.
  replace (Z.of_nat h - 1 + 1)%Z with (Z.of_nat h) by lia.
  now rewrite Nat2Z.id.
Qed.

(** The wrap-around of a start index of [-1]. *)
Lemma slice_down_from_minus_one {A : Type} (a : list A) :
  slice_down_from a (-1) = rev a.
Proof.
  unfold slice_down_from. change (-1 <? 0)%Z with true. cbv iota zeta.
  destruct a as [|x a].
  - reflexivity.
  - destruct (Z.ltb_spec (-1 + Z.of_nat (length (x :: a))) 0) as [Hneg|_].
    + simpl length in Hneg. lia.
    + rewrite Z.min_l by lia.
      replace (-1 + Z.of_nat (length (x :: a)) + 1)%Z
        with (Z.of_nat (length (x :: a))) by lia.
      now rewrite Nat2Z.id, firstn_all.
Qed.

Lemma slice_from_incl {A : Type} (a : list A) (start : Z) :
  incl (slice_from a start) a.
Proof.
  unfold slice_from. intros x Hx.
  rewrite <- (firstn_skipn (Z.to_nat
    (if (start <? 0)%Z then Z.max 0 (start + Z.of_nat (length a))
     else Z.min start (Z.of_nat (length a)))) a).
  apply in_or_app. now right.
Qed.

Lemma slice_down_from_incl {A : Type} (a : list A) (start : Z) :
  incl (slice_down_from a start) a.
Proof.
  unfold slice_down_from. cbv zeta.
  set (s := if (start <? 0)%Z then (start + Z.of_nat (length a))%Z else start).
  intros x Hx. destruct (s <? 0)%Z; [destruct Hx|].
  apply in_rev in Hx.
  match type of Hx with In _ (firstn ?k _) =>
    rewrite <- (firstn_skipn k a) end.
  apply in_or_app. now left.
Qed.

(** ** The insertion argsort meets the contract *)

Lemma insert_index_perm (keys : list Q) (i : nat) (l : list nat) :
  Permutation (insert_index keys i l) (i :: l).
Proof.
  induction l as [|j l IH]; simpl.
  - reflexivity.
  - destruct (Qle_bool (key_at keys i) (key_at keys j)).
    + reflexivity.
    + rewrite IH. apply perm_swap.
Qed.

Lemma insert_index_sorted (keys : list Q) (i : nat) (l : list nat) :
  Sorted Qle (map (key_at keys) l) ->
  Sorted Qle (map (key_at keys) (insert_index keys i l)).
Proof.
  induction l as [|j l IH]; simpl; intros Hs.
  - repeat constructor.
  - destruct (Qle_bool (key_at keys i) (key_at keys j)) eqn:E.
    + simpl. constructor; [assumption|].
      constructor. now apply Qle_bool_iff.
    + assert (Hji : (key_at keys j <= key_at keys i)%Q).
      { destruct (Qlt_le_dec (key_at keys j) (key_at keys i)) as [Hlt|Hle].
        - now apply Qlt_le_weak.
        - apply Qle_bool_iff in Hle. congruence. }
      inversion Hs as [|? ? Hs' Hhd]; subst.
      simpl. constructor; [now apply IH|].
      destruct l as [|k l]; simpl.
      * now constructor.
      * destruct (Qle_bool (key_at keys i) (key_at keys k)); simpl.
        -- now constructor.
        -- inversion Hhd; subst. now constructor.
Qed.

Lemma argsort_insertion_ok (keys : list Q) :
  is_argsort keys (argsort_insertion keys).
Proof.
  unfold is_argsort, argsort_insertion.
  generalize (seq 0 (length keys)) as l.
  intros l. split.
  - induction l as [|i l IH]; simpl.
    + reflexivity.
    + rewrite insert_index_perm. now constructor.
  - apply Sorted_StronglySorted.
    + intros x y z. apply Qle_trans.
    + induction l as [|i l IH]; simpl.
      * constructor.
      * now apply insert_index_sorted.
Qed.

(** ** Lists that are sorted, cut and reversed *)

Lemma map_nth_seq_id {A : Type} (l : list A) (d : A) :
  map (fun i => nth i l d) (seq 0 (length l)) = l.
Proof.
  induction l as [|a l IH]; simpl.
  - reflexivity.
  - f_equal. rewrite <- seq_shift, map_map. exact IH.
Qed.

Lemma StronglySorted_map_iff {A B : Type} (R : B -> B -> Prop) (f : A -> B)
  (l : list A) :
  StronglySorted R (map f l) <-> StronglySorted (fun a b => R (f a) (f b)) l.
Proof.
  induction l as [|a l IH]; simpl.
  - split; constructor.
  - split; intros Hs; inversion Hs as [|? ? Hs' Hall]; subst;
      constructor; try (now apply IH).
    + rewrite Forall_map in Hall. exact Hall.
    + rewrite Forall_map. exact Hall.
Qed.

Lemma StronglySorted_skipn {A : Type} (R : A -> A -> Prop) (h : nat) (l : list A) :
  StronglySorted R l -> StronglySorted R (skipn h l).
Proof.
  revert l. induction h as [|h IH]; intros l Hs.
  - exact Hs.
  - destruct l as [|a l]; simpl; [constructor|].
    apply IH. now inversion Hs.
Qed.

Lemma StronglySorted_app_inv {A : Type} (R : A -> A -> Prop) (l1 l2 : list A) :
  StronglySorted R (l1 ++ l2) ->
  StronglySorted R l1 /\ StronglySorted R l2 /\
  (forall a b, In a l1 -> In b l2 -> R a b).
Proof.
  induction l1 as [|x l1 IH]; simpl; intros Hs.
  - repeat split; [constructor|assumption|intros a b []].
  - inversion Hs as [|? ? Hs' Hall]; subst.
    destruct (IH Hs') as (H1 & H2 & H12).
    apply Forall_app in Hall. destruct Hall as [Hl1 Hl2].
    repeat split; [now constructor|assumption|].
    intros a b [<-|Ha] Hb.
    + rewrite Forall_forall in Hl2. now apply Hl2.
    + now apply H12.
Qed.

Lemma StronglySorted_snoc {A : Type} (R : A -> A -> Prop) (l : list A) (x : A) :
  StronglySorted R l -> Forall (fun a => R a x) l -> StronglySorted R (l ++ [x]).
Proof.
  induction l as [|a l IH]; simpl; intros Hs Hall.
  - repeat constructor.
  - inversion Hs as [|? ? Hs' Ha]; subst.
    inversion Hall as [|? ? Hax Hall']; subst.
    constructor; [now apply IH|].
    apply Forall_app. split; [assumption|now constructor].
Qed.

Lemma StronglySorted_rev {A : Type} (R : A -> A -> Prop) (l : list A) :
  StronglySorted R l -> StronglySorted (fun a b => R b a) (rev l).
Proof.
  induction l as [|a l IH]; simpl; intros Hs.
  - constructor.
  - inversion Hs as [|? ? Hs' Hall]; subst.
    apply StronglySorted_snoc; [now apply IH|].
    rewrite Forall_forall in *. intros b Hb. apply Hall. now apply in_rev.
Qed.

Lemma Forall2_nth_error {A B : Type} (R : A -> B -> Prop) (l : list A) (l' : list B)
  (k : nat) (a : A) :
  Forall2 R l l' -> nth_error l k = Some a ->
  exists b, nth_error l' k = Some b /\ R a b.
Proof.
  intros H12. revert k. induction H12 as [|x y l l' Hxy _ IH]; intros k Hk.
  - destruct k; discriminate.
  - destruct k as [|k]; simpl in *.
    + injection Hk as <-. now exists y.
    + now apply IH.
Qed.

Lemma take_spec {A : Type} (a : list A) (idx : list nat) :
  Forall (fun i => i < length a) idx ->
  exists l, take a idx = Ok l /\
            Forall2 (fun i x => nth_error a i = Some x) idx l.
Proof.
  unfold take. induction idx as [|i idx IH]; intros Hidx; simpl.
  - exists []. split; [reflexivity|constructor].
  - inversion Hidx as [|? ? Hi Hidx']; subst.
    destruct (IH Hidx') as (l & Hl & Hall).
    unfold getitem at 1.
    destruct (nth_error a i) as [x|] eqn:E.
    + simpl. rewrite Hl. simpl. exists (x :: l). split; [reflexivity|].
      now constructor.
    + apply nth_error_None in E. lia.
Qed.

Lemma take_cols_spec {A : Type} (V : list (list A)) (idx : list nat) (n : nat) :
  Forall (fun row => length row = n) V ->
  Forall (fun i => i < n) idx ->
  exists V', take_cols V idx = Ok V' /\
    Forall2 (fun row row' =>
               Forall2 (fun i x => nth_error row i = Some x) idx row') V V'.
Proof.
  unfold take_cols. intros HV Hidx.
  induction HV as [|row V Hrow _ IH]; simpl.
  - exists []. split; [reflexivity|constructor].
  - destruct IH as (V' & HV' & Hall).
    destruct (take_spec row idx) as (row' & Hrow' & Hidx').
    { now rewrite Hrow. }
    rewrite Hrow'. simpl. rewrite HV'. simpl.
    exists (row' :: V'). split; [reflexivity|now constructor].
Qed.

Lemma get_col_reindexed {A : Type} (V V' : list (list A)) (idx : list nat)
  (k j : nat) :
  Forall2 (fun row row' =>
             Forall2 (fun i x => nth_error row i = Some x) idx row') V V' ->
  nth_error idx k = Some j ->
  get_col V' k = get_col V j.
Proof.
  intros HVV Hk. unfold get_col.
  induction HVV as [|row row' V V' Hrow _ IH]; simpl.
  - reflexivity.
  - destruct (Forall2_nth_error _ _ _ k j Hrow Hk) as (x & Hx' & Hx).
    unfold getitem at 1 3. rewrite Hx', Hx. simpl. now rewrite IH.
Qed.

(** ** [eigen]: the index array and the reordered decomposition *)

Lemma forallb_imag_zero (evalues : list complex) :
  all_imag_zero evalues = true <-> Forall (fun z => (im z == 0)%Q) evalues.
Proof.
  unfold all_imag_zero. rewrite forallb_forall, Forall_forall.
  split; intros Hz z Hin; apply Qeq_bool_iff; now apply Hz.
Qed.

Lemma Qlt_bool_iff (x y : Q) : Qlt_bool x y = true <-> (x < y)%Q.
Proof.
  unfold Qlt_bool. rewrite negb_true_iff. split.
  - intros Hb. apply Qnot_le_lt. intros Hle.
    apply Qle_bool_iff in Hle. congruence.
  - intros Hlt. destruct (Qle_bool y x) eqn:E; [|reflexivity].
    apply Qle_bool_iff in E. exfalso. exact (Qlt_not_le _ _ Hlt E).
Qed.

Lemma forallb_real_positive (evalues : list complex) :
  all_real_positive evalues = true <-> Forall (fun z => (0 < re z)%Q) evalues.
Proof.
  unfold all_real_positive. rewrite forallb_forall, Forall_forall.
  split; intros Hz z Hin; apply Qlt_bool_iff; now apply Hz.
Qed.

Section EigenFacts.

Variable F : Type.
Variable la_eig : matrix F -> option (matrix F) -> result (list complex * matrix F).
Variable argsort : list Q -> list nat.
Hypothesis argsort_ok : forall keys, is_argsort keys (argsort keys).

Lemma argsort_length (keys : list Q) : length (argsort keys) = length keys.
Proof.
  destruct (argsort_ok keys) as [Hp _].
  rewrite (Permutation_length Hp). apply length_seq.
Qed.

Lemma argsort_range (keys : list Q) :
  Forall (fun i => i < length keys) (argsort keys).
Proof.
  destruct (argsort_ok keys) as [Hp _].
  apply Forall_forall. intros i Hi.
  apply (Permutation_in _ Hp) in Hi. apply in_seq in Hi. lia.
Qed.

Lemma argsort_singleton (k : Q) : argsort [k] = [0].
Proof.
  destruct (argsort_ok [k]) as [Hp _]. simpl in Hp.
  apply Permutation_sym, Permutation_length_1_inv in Hp. exact Hp.
Qed.

Lemma eigen_index_range (evalues : list complex) :
  Forall (fun i => i < length evalues) (eigen_index argsort evalues).
Proof.
  assert (Hre := argsort_range (map re evalues)).
  assert (Him := argsort_range (map im evalues)).
  rewrite length_map in Hre, Him.
  unfold eigen_index, eigen_blocks, split_index.
  destruct (all_imag_zero evalues); [destruct (all_real_positive evalues)|];
    apply Forall_app; split;
    first [ exact Hre | constructor
          | eapply incl_Forall; [apply slice_from_incl|eassumption]
          | eapply incl_Forall; [apply slice_down_from_incl|eassumption] ].
Qed.

Lemma eigen_unfold (A : matrix F) (B : option (matrix F)) evalues evectors :
  la_eig A B = Ok (evalues, evectors) ->
  eigen la_eig argsort A B = eigen_sort argsort evalues evectors.
Proof.
  intros Hraw. unfold eigen. destruct B; now rewrite Hraw.
Qed.

(** The reordering never raises on a decomposition of matching shape; the
    eigenvalues and the eigenvector columns are read through one index
    array. *)
Lemma eigen_sort_spec (n : nat) (evalues : list complex) (evectors : matrix F) :
  length evalues = n ->
  Forall (fun row => length row = n) evectors ->
  exists vecs,
    eigen_sort argsort evalues evectors =
      Ok (map (fun i => nth i evalues (mkC 0 0)) (eigen_index argsort evalues), vecs)
    /\ take_cols evectors (eigen_index argsort evalues) = Ok vecs
    /\ Forall2 (fun row row' =>
                  Forall2 (fun i x => nth_error row i = Some x)
                          (eigen_index argsort evalues) row') evectors vecs.
Proof.
  intros Hn Hshape.
  assert (Hidx := eigen_index_range evalues).
  destruct (take_cols_spec evectors (eigen_index argsort evalues) n Hshape)
    as (vecs & Hvecs & Hall).
  { now rewrite <- Hn. }
  exists vecs. split; [|split; assumption].
  unfold eigen_sort.
  rewrite (take_ok evalues _ (mkC 0 0) Hidx). simpl.
  now rewrite Hvecs.
Qed.

(** *** The ranking *)

Lemma ranked_length (key : complex -> Q) (evalues : list complex) :
  length (ranked argsort key evalues) = length evalues.
Proof.
  unfold ranked. now rewrite length_map, argsort_length, length_map.
Qed.

Lemma ranked_perm (key : complex -> Q) (evalues : list complex) :
  Permutation (ranked argsort key evalues) evalues.
Proof.
  unfold ranked. destruct (argsort_ok (map key evalues)) as [Hp _].
  rewrite length_map in Hp.
  rewrite (Permutation_map (fun i => nth i evalues (mkC 0 0)) Hp).
  now rewrite map_nth_seq_id.
Qed.

Lemma ranked_sorted (key : complex -> Q) (evalues : list complex) :
  StronglySorted (fun a b => (key a <= key b)%Q) (ranked argsort key evalues).
Proof.
  apply (proj1 (StronglySorted_map_iff Qle key (ranked argsort key evalues))).
  destruct (argsort_ok (map key evalues)) as [_ Hs].
  assert (Hr := argsort_range (map key evalues)).
  rewrite length_map in Hr.
  unfold ranked. rewrite map_map.
  erewrite map_ext_in; [exact Hs|].
  intros i Hi. rewrite Forall_forall in Hr. specialize (Hr i Hi).
  unfold key_at. simpl.
  rewrite (nth_indep (map key evalues) 0%Q (key (mkC 0 0)))
    by now rewrite length_map.
  now rewrite map_nth.
Qed.

(** *** The two blocks of a split branch *)

Lemma half_nat (evalues : list complex) :
  half evalues = Z.of_nat (length evalues / 2).
Proof.
  unfold half. now rewrite Nat2Z.inj_div.
Qed.

Lemma split_index_halves (keys : list Q) (n : nat) :
  length keys = n -> 2 <= n ->
  split_index argsort keys (Z.of_nat (n / 2)) =
    (skipn (n / 2) (argsort keys), rev (firstn (n / 2) (argsort keys))).
Proof.
  intros Hn Hge. unfold split_index.
  assert (Hlen := argsort_length keys).
  assert (Hdm := Nat.div_mod_eq n 2).
  assert (Hm := Nat.mod_upper_bound n 2 ltac:(lia)).
  rewrite slice_from_nat by lia.
  rewrite slice_down_from_pred by lia.
  reflexivity.
Qed.

(** With fewer than two eigenvalues the start index [h - 1] of the lower
    block is [-1], which wraps around to the last position. *)
Lemma split_index_wraps (keys : list Q) (n : nat) :
  length keys = n -> n <= 1 ->
  split_index argsort keys (Z.of_nat (n / 2)) =
    (argsort keys, rev (argsort keys)).
Proof.
  intros Hn Hle. unfold split_index.
  replace (n / 2) with 0
    by (destruct n as [|[|n]]; [reflexivity|reflexivity|lia]).
  rewrite slice_from_nat by lia. simpl skipn.
  change (Z.of_nat 0 - 1)%Z with (-1)%Z.
  now rewrite slice_down_from_minus_one.
Qed.

Lemma split_values (key : complex -> Q) (evalues : list complex) :
  2 <= length evalues ->
  let '(idxp, idxn) := split_index argsort (map key evalues) (half evalues) in
  map (fun i => nth i evalues (mkC 0 0)) (idxp ++ idxn) =
    spec_split_by_half (ranked argsort key evalues).
Proof.
  intros Hge. rewrite half_nat.
  rewrite (split_index_halves (map key evalues) (length evalues))
    by (try apply length_map; lia).
  unfold spec_split_by_half. rewrite ranked_length. unfold ranked.
  now rewrite map_app, map_rev, skipn_map, firstn_map.
Qed.

End EigenFacts.

Lemma get_col_total {A : Type} (V : list (list A)) (j : nat) :
  Forall (fun row => j < length row) V ->
  exists v, get_col V j = Ok v /\ length v = length V.
Proof.
  unfold get_col. induction 1 as [|row V Hrow _ IH]; simpl.
  - now exists [].
  - destruct IH as (v & Hv & Hlen).
    unfold getitem at 1.
    destruct (nth_error row j) as [x|] eqn:E.
    + simpl. rewrite Hv. simpl. exists (x :: v). simpl. now rewrite Hlen.
    + apply nth_error_None in E. lia.
Qed.

(** The upper block of a split ranking ascends, the lower block descends,
    and no key of the lower block exceeds a key of the upper block. *)
Lemma spec_split_blocks (key : complex -> Q) (ranking : list complex) :
  StronglySorted (fun a b => (key a <= key b)%Q) ranking ->
  let h := length ranking / 2 in
  StronglySorted (fun a b => (key a <= key b)%Q) (skipn h ranking) /\
  StronglySorted (fun a b => (key b <= key a)%Q) (rev (firstn h ranking)) /\
  (forall a b, In a (rev (firstn h ranking)) -> In b (skipn h ranking) ->
               (key a <= key b)%Q) /\
  Permutation (spec_split_by_half ranking) ranking.
Proof.
  intros Hs h.
  assert (Hcut := Hs). rewrite <- (firstn_skipn h ranking) in Hcut.
  apply StronglySorted_app_inv in Hcut. destruct Hcut as (Hlow & Hup & Hcross).
  repeat split.
  - exact Hup.
  - now apply StronglySorted_rev.
  - intros a b Ha Hb. apply Hcross; [now apply in_rev|assumption].
  - unfold spec_split_by_half. fold h.
    rewrite Permutation_app_comm, <- Permutation_rev.
    now rewrite firstn_skipn.
Qed.

(** With two or more eigenvalues the split branches return the eigenvalues
    split by half: by imaginary part when some imaginary part is not zero,
    by real part when all are zero and some real part is not positive. *)
Lemma eigen_split_by_half (F : Type)
  (la_eig : matrix F -> option (matrix F) -> result (list complex * matrix F))
  (argsort : list Q -> list nat) (A : matrix F) (B : option (matrix F))
  (n : nat) (evalues : list complex) (evectors : matrix F) :
  (forall keys, is_argsort keys (argsort keys)) ->
  la_eig A B = Ok (evalues, evectors) ->
  length evalues = n ->
  has_shape n n evectors ->
  2 <= n ->
  exists vals vecs,
    eigen la_eig argsort A B = Ok (vals, vecs) /\
    Permutation vals evalues /\
    (all_imag_zero evalues = false ->
       vals = spec_split_by_half (ranked argsort im evalues)) /\
    (all_imag_zero evalues = true -> all_real_positive evalues = false ->
       vals = spec_split_by_half (ranked argsort re evalues)).
Proof.
  intros Hsort Hraw Hn [_ Hshape] Hge.
  destruct (eigen_sort_spec F argsort Hsort n evalues evectors Hn Hshape)
    as (vecs & Hrun & _).
  rewrite (eigen_unfold F la_eig argsort A B _ _ Hraw).
  eexists; exists vecs. split; [exact Hrun|].
  assert (Him := split_values argsort Hsort im evalues ltac:(lia)).
  assert (Hre := split_values argsort Hsort re evalues ltac:(lia)).
  unfold eigen_index, eigen_blocks.
  destruct (all_imag_zero evalues); [destruct (all_real_positive evalues)|].
  - split; [|split; intros; congruence].
    rewrite app_nil_r. apply (ranked_perm argsort Hsort re).
  - destruct (split_index argsort (map re evalues) (half evalues)) as [idxp idxn].
    rewrite Hre. split; [|split; intros; congruence].
    rewrite (proj2 (proj2 (proj2 (spec_split_blocks re _
               (ranked_sorted argsort Hsort re evalues))))).
    apply (ranked_perm argsort Hsort re).
  - destruct (split_index argsort (map im evalues) (half evalues)) as [idxp idxn].
    rewrite Him. split; [|split; intros; congruence].
    rewrite (proj2 (proj2 (proj2 (spec_split_blocks im _
               (ranked_sorted argsort Hsort im evalues))))).
    apply (ranked_perm argsort Hsort im).
Qed.

(** A single eigenvalue that sends [eigen] to a split branch: the index
    array is [[0; 0]], position [0] taken once by [idxp] and once more by
    [idxn], whose start index [-1] wraps around. *)
Lemma eigen_index_singleton (argsort : list Q -> list nat) (z : complex) :
  (forall keys, is_argsort keys (argsort keys)) ->
  ~ (im z == 0)%Q \/ (re z <= 0)%Q ->
  eigen_index argsort [z] = [0; 0].
Proof.
  intros Hsort Hz.
  unfold eigen_index, eigen_blocks, all_imag_zero, all_real_positive.
  simpl forallb. rewrite !andb_true_r.
  assert (Hsplit : forall key : complex -> Q,
             split_index argsort (map key [z]) (half [z]) = ([0], [0])).
  { intros key. change (half [z]) with (Z.of_nat (1 / 2)).
    rewrite (split_index_wraps argsort (map key [z]) 1) by (simpl; lia).
    simpl map. now rewrite (argsort_singleton argsort Hsort). }
  destruct (Qeq_bool (im z) 0) eqn:Ei.
  - destruct (Qlt_bool 0 (re z)) eqn:Er.
    + exfalso. destruct Hz as [Hz|Hz].
      * apply Hz. now apply Qeq_bool_iff.
      * apply Qlt_bool_iff in Er. exact (Qlt_not_le _ _ Er Hz).
    + now rewrite Hsplit.
  - now rewrite Hsplit.
Qed.

(** It is returned twice, and so is its eigenvector. *)
Lemma eigen_sort_singleton (F : Type) (argsort : list Q -> list nat)
  (z : complex) (x : F) :
  (forall keys, is_argsort keys (argsort keys)) ->
  ~ (im z == 0)%Q \/ (re z <= 0)%Q ->
  eigen_sort argsort [z] [[x]] = Ok ([z; z], [[x; x]]).
Proof.
  intros Hsort Hz.
  unfold eigen_sort. rewrite (eigen_index_singleton argsort z Hsort Hz).
  reflexivity.
Qed.

(** ** [eigen]: the claims *)

(** C1.  Split by half: the upper half of the ranking ascending, then the
    lower half descending, by imaginary part when some imaginary part is not
    zero and by real part when the spectrum is real with a non-positive real
    part.  The code does not do so for a single eigenvalue: the ranking is
    [[z]], its split by half is [[z]], and [eigen] returns [[z; z]]. *)
Theorem eigen_single_eigenvalue_not_split (F : Type)
  (la_eig : matrix F -> option (matrix F) -> result (list complex * matrix F))
  (argsort : list Q -> list nat) (A : matrix F) (B : option (matrix F))
  (z : complex) (x : F) :
  (forall keys, is_argsort keys (argsort keys)) ->
  la_eig A B = Ok ([z], [[x]]) ->
  ~ (im z == 0)%Q \/ (re z <= 0)%Q ->
  eigen la_eig argsort A B = Ok ([z; z], [[x; x]]) /\
  spec_split_by_half (ranked argsort im [z]) = [z] /\
  spec_split_by_half (ranked argsort re [z]) = [z].
Proof.
  intros Hsort Hraw Hz.
  rewrite (eigen_unfold F la_eig argsort A B _ _ Hraw).
  split; [now apply eigen_sort_singleton|].
  unfold spec_split_by_half, ranked. simpl map.
  rewrite !(argsort_singleton argsort Hsort). split; reflexivity.
Qed.

Lemma eigen_single_eigenvalue_not_split_witness :
  eigen (eig_answer_at [[-1]]%Q ([real (-1)], [[1%Q]])) argsort_insertion
        [[-1]]%Q None
    = Ok ([real (-1); real (-1)], [[1; 1]]%Q) /\
  spec_split_by_half (ranked argsort_insertion im [real (-1)]) = [real (-1)] /\
  spec_split_by_half (ranked argsort_insertion re [real (-1)]) = [real (-1)].
Proof.
  apply (eigen_single_eigenvalue_not_split Q
           (eig_answer_at [[-1]]%Q ([real (-1)], [[1%Q]])) argsort_insertion
           [[-1]]%Q None (real (-1)) 1%Q).
  - exact argsort_insertion_ok.
  - reflexivity.
  - right. simpl. unfold Qle. simpl. lia.
Defined.

(** C4.  [eigen] returns exactly [n] eigenvalues and [n] eigenvector
    columns, a permutation of the raw decomposition.  The code does not do
    so for [n = 1] in a split branch: it returns two eigenvalues and two
    columns. *)
Theorem eigen_single_eigenvalue_duplicated (F : Type)
  (la_eig : matrix F -> option (matrix F) -> result (list complex * matrix F))
  (argsort : list Q -> list nat) (A : matrix F) (B : option (matrix F))
  (z : complex) (x : F) :
  (forall keys, is_argsort keys (argsort keys)) ->
  la_eig A B = Ok ([z], [[x]]) ->
  ~ (im z == 0)%Q \/ (re z <= 0)%Q ->
  exists vals vecs,
    eigen la_eig argsort A B = Ok (vals, vecs) /\
    length vals = 2 /\
    Forall (fun row => length row = 2) vecs /\
    ~ Permutation vals [z].
Proof.
  intros Hsort Hraw Hz.
  exists [z; z], [[x; x]].
  rewrite (eigen_unfold F la_eig argsort A B _ _ Hraw).
  split; [now apply eigen_sort_singleton|].
  split; [reflexivity|]. split; [now repeat constructor|].
  intros Hp. apply Permutation_length in Hp. discriminate.
Qed.

Lemma eigen_single_eigenvalue_duplicated_witness :
  exists vals vecs,
    eigen (eig_answer_at [[-1]]%Q ([real (-1)], [[1%Q]])) argsort_insertion
          [[-1]]%Q None = Ok (vals, vecs) /\
    length vals = 2 /\
    Forall (fun row => length row = 2) vecs /\
    ~ Permutation vals [real (-1)].
Proof.
  apply (eigen_single_eigenvalue_duplicated Q
           (eig_answer_at [[-1]]%Q ([real (-1)], [[1%Q]])) argsort_insertion
           [[-1]]%Q None (real (-1)) 1%Q).
  - exact argsort_insertion_ok.
  - reflexivity.
  - right. simpl. unfold Qle. simpl. lia.
Defined.

(** C5.  The same permutation is applied to the eigenvalues and to the
    eigenvector columns.  The code does not do so for a single eigenvalue in
    a split branch: the one index array it applies to both is [[0; 0]],
    which is not a permutation of the positions [[0]], and the raw pair is
    returned at the two indices [0] and [1]. *)
Theorem eigen_single_eigenvalue_not_permuted (F : Type)
  (la_eig : matrix F -> option (matrix F) -> result (list complex * matrix F))
  (argsort : list Q -> list nat) (A : matrix F) (B : option (matrix F))
  (z : complex) (x : F) :
  (forall keys, is_argsort keys (argsort keys)) ->
  la_eig A B = Ok ([z], [[x]]) ->
  ~ (im z == 0)%Q \/ (re z <= 0)%Q ->
  exists idx vals vecs,
    idx = eigen_index argsort [z] /\
    take [z] idx = Ok vals /\
    take_cols [[x]] idx = Ok vecs /\
    eigen la_eig argsort A B = Ok (vals, vecs) /\
    idx = [0; 0] /\
    ~ NoDup idx /\
    ~ Permutation idx (seq 0 1) /\
    get_col vecs 1 = Ok [x] /\
    nth_error vals 1 = Some z.
Proof.
  intros Hsort Hraw Hz.
  assert (Hidx := eigen_index_singleton argsort z Hsort Hz).
  exists [0; 0], [z; z], [[x; x]].
  rewrite (eigen_unfold F la_eig argsort A B _ _ Hraw).
  split; [now symmetry|].
  split; [reflexivity|]. split; [reflexivity|].
  split; [now apply eigen_sort_singleton|].
  split; [reflexivity|]. split; [|split; [|split; reflexivity]].
  - intros Hnd. inversion Hnd as [|i l Hin _]; subst. apply Hin. now left.
  - intros Hp. apply Permutation_length in Hp. discriminate.
Qed.

Lemma eigen_single_eigenvalue_not_permuted_witness :
  exists idx vals vecs,
    idx = eigen_index argsort_insertion [real (-1)] /\
    take [real (-1)] idx = Ok vals /\
    take_cols [[1%Q]] idx = Ok vecs /\
    eigen (eig_answer_at [[-1]]%Q ([real (-1)], [[1%Q]])) argsort_insertion
          [[-1]]%Q None = Ok (vals, vecs) /\
    idx = [0; 0] /\
    ~ NoDup idx /\
    ~ Permutation idx (seq 0 1) /\
    get_col vecs 1 = Ok [1%Q] /\
    nth_error vals 1 = Some (real (-1)).
Proof.
  apply (eigen_single_eigenvalue_not_permuted Q
           (eig_answer_at [[-1]]%Q ([real (-1)], [[1%Q]])) argsort_insertion
           [[-1]]%Q None (real (-1)) 1%Q).
  - exact argsort_insertion_ok.
  - reflexivity.
  - right. simpl. unfold Qle. simpl. lia.
Defined.

(** C7.  When every eigenvalue has imaginary part exactly zero and a
    strictly positive real part, [eigen] returns the eigenvalues in
    ascending order of real part, and the negative block is empty. *)
Theorem eigen_positive_real_ascending (F : Type)
  (la_eig : matrix F -> option (matrix F) -> result (list complex * matrix F))
  (argsort : list Q -> list nat) (A : matrix F) (B : option (matrix F))
  (n : nat) (evalues : list complex) (evectors : matrix F) :
  (forall keys, is_argsort keys (argsort keys)) ->
  la_eig A B = Ok (evalues, evectors) ->
  length evalues = n ->
  has_shape n n evectors ->
  Forall (fun z => (im z == 0)%Q /\ (0 < re z)%Q) evalues ->
  exists vals vecs,
    eigen la_eig argsort A B = Ok (vals, vecs) /\
    snd (eigen_blocks argsort evalues) = [] /\
    vals = ranked argsort re evalues /\
    StronglySorted (fun a b => (re a <= re b)%Q) vals /\
    Permutation vals evalues /\
    length vals = n.
Proof.
  intros Hsort Hraw Hn [_ Hshape] Hpos.
  destruct (eigen_sort_spec F argsort Hsort n evalues evectors Hn Hshape)
    as (vecs & Hrun & _).
  assert (Hblocks : eigen_blocks argsort evalues = (argsort (map re evalues), [])).
  { unfold eigen_blocks.
    rewrite (proj2 (forallb_imag_zero evalues))
      by (eapply Forall_impl; [|exact Hpos]; now intros z [Hz _]).
    rewrite (proj2 (forallb_real_positive evalues))
      by (eapply Forall_impl; [|exact Hpos]; now intros z [_ Hz]).
    reflexivity. }
  exists (ranked argsort re evalues), vecs.
  rewrite (eigen_unfold F la_eig argsort A B _ _ Hraw), Hrun.
  unfold eigen_index. rewrite Hblocks, app_nil_r.
  repeat split.
  - apply (ranked_sorted argsort Hsort re).
  - apply (ranked_perm argsort Hsort re).
  - rewrite (ranked_length argsort Hsort). exact Hn.
Qed.

Lemma eigen_positive_real_ascending_witness :
  exists vals vecs,
    eigen (eig_answer_at [[1; 0; 0]; [0; 5; 0]; [0; 0; 3]]%Q
             ([real 1; real 5; real 3], eye 3 3))
          argsort_insertion [[1; 0; 0]; [0; 5; 0]; [0; 0; 3]]%Q None
      = Ok (vals, vecs) /\
    snd (eigen_blocks argsort_insertion [real 1; real 5; real 3]) = [] /\
    vals = ranked argsort_insertion re [real 1; real 5; real 3] /\
    StronglySorted (fun a b => (re a <= re b)%Q) vals /\
    Permutation vals [real 1; real 5; real 3] /\
    length vals = 3.
Proof.
  apply (eigen_positive_real_ascending Q
           (eig_answer_at [[1; 0; 0]; [0; 5; 0]; [0; 0; 3]]%Q
              ([real 1; real 5; real 3], eye 3 3))
           argsort_insertion [[1; 0; 0]; [0; 5; 0]; [0; 0; 3]]%Q None 3
           [real 1; real 5; real 3] (eye 3 3)).
  - exact argsort_insertion_ok.
  - reflexivity.
  - reflexivity.
  - split; [reflexivity|]. repeat constructor.
  - repeat constructor.
Defined.

(** The example of the specification: the eigenvalues of [diag(1, 5, 3)]
    come back as [1, 3, 5], the eigenvector columns in the same order. *)
Lemma eigen_diag_1_5_3 :
  eigen (eig_answer_at [[1; 0; 0]; [0; 5; 0]; [0; 0; 3]]%Q
           ([real 1; real 5; real 3], eye 3 3))
        argsort_insertion [[1; 0; 0]; [0; 5; 0]; [0; 0; 3]]%Q None
    = Ok ([real 1; real 3; real 5],
          [[1; 0; 0]; [0; 0; 1]; [0; 1; 0]]%Q).
Proof. reflexivity. Qed.

(** The example of the docstring: four conjugate pairs. *)
Lemma eigen_sort_docstring :
  eigen_sort argsort_insertion
    [mkC 0 (894 # 10); mkC 0 (-894 # 10); mkC 0 (894 # 10); mkC 0 (-894 # 10);
     mkC 0 (9832 # 10); mkC 0 (-9832 # 10); mkC 0 (407 # 10); mkC 0 (-407 # 10)]
    (eye 8 8 : matrix Q)
  = Ok ([mkC 0 (407 # 10); mkC 0 (894 # 10); mkC 0 (894 # 10); mkC 0 (9832 # 10);
         mkC 0 (-407 # 10); mkC 0 (-894 # 10); mkC 0 (-894 # 10); mkC 0 (-9832 # 10)],
        map (fun row => map (fun i => nth i row 0%Q) [6; 0; 2; 4; 7; 3; 1; 5])
            (eye 8 8)).
Proof. reflexivity. Qed.

(** C8.  The real-spectrum branch is taken exactly when every imaginary part
    is zero, by an exact comparison: the blocks come from the ranking by real
    part when all imaginary parts are zero, and from the ranking by imaginary
    part as soon as one eigenvalue has a non-zero imaginary part, whatever
    its size. *)
Theorem eigen_branch_exact_zero_test (argsort : list Q -> list nat)
  (evalues : list complex) :
  (all_imag_zero evalues = true <-> Forall (fun z => (im z == 0)%Q) evalues) /\
  (Forall (fun z => (im z == 0)%Q) evalues ->
     eigen_blocks argsort evalues =
       if all_real_positive evalues
       then (argsort (map re evalues), [])
       else split_index argsort (map re evalues) (half evalues)) /\
  (forall z, In z evalues -> ~ (im z == 0)%Q ->
     eigen_blocks argsort evalues =
       split_index argsort (map im evalues) (half evalues)).
Proof.
  split; [apply forallb_imag_zero|]. split.
  - intros Hzero. unfold eigen_blocks.
    now rewrite (proj2 (forallb_imag_zero evalues) Hzero).
  - intros z Hin Hz. unfold eigen_blocks.
    destruct (all_imag_zero evalues) eqn:E; [|reflexivity].
    exfalso. apply Hz.
    apply forallb_imag_zero in E. rewrite Forall_forall in E. now apply E.
Qed.

(** An imaginary part of [10^-30] is enough to leave the real branch: the
    two positive real parts are then split instead of sorted. *)
Lemma eigen_tiny_imaginary_part :
  eigen_sort argsort_insertion
    [mkC 1 0; mkC 2 (1 # 1000000000000000000000000000000)] (eye 2 2 : matrix Q)
  = Ok ([mkC 2 (1 # 1000000000000000000000000000000); mkC 1 0],
        [[0; 1]; [1; 0]]%Q).
Proof. reflexivity. Qed.

(** ** [modes_system_undamped] *)

(** The steps of the function, in order: when each of them returns, the
    function returns the sorted eigenvalues, [P], [S = Linv @ P] and
    [Sinv = P.T @ Linv]. *)
Lemma modes_steps (F : Type) (SF : Scalar F)
  (la_eig : matrix F -> option (matrix F) -> result (list complex * matrix F))
  (argsort : list Q -> list nat)
  (la_cholesky : matrix F -> bool -> result (matrix F))
  (la_inv : matrix F -> result (matrix F))
  (M K L Linv LinvK W P S Sinv : matrix F) (lam : list complex) :
  la_cholesky M false = Ok L ->
  la_inv L = Ok Linv ->
  matmul Linv K = Ok LinvK ->
  matmul LinvK (transpose Linv) = Ok W ->
  eigen la_eig argsort W None = Ok (lam, P) ->
  matmul Linv P = Ok S ->
  matmul (transpose P) Linv = Ok Sinv ->
  modes_system_undamped la_eig argsort la_cholesky la_inv M K
    = Ok (lam, P, S, Sinv).
Proof.
  intros HL HLinv HLK HW Heig HS HSinv.
  unfold modes_system_undamped, modes_body.
  rewrite HL. simpl. rewrite HLinv. simpl. rewrite HLK. simpl.
  rewrite HW. simpl. rewrite Heig. simpl. rewrite HS. simpl.
  rewrite HSinv. reflexivity.
Qed.

(** Whatever upper factor the library returns for [M = [[1, 1], [1, 2]]], it
    is not lower triangular: its entry above the diagonal times its first
    diagonal entry is [1]. *)
Lemma upper_factor_not_lower (L : matrix Q) :
  has_shape 2 2 L ->
  is_upper_factor L [[1; 1]; [1; 2]]%Q = true ->
  lower_triangular L = false.
Proof.
  intros [Hrows Hcols] Hup.
  destruct L as [|r0 [|r1 [|r2 L]]]; try discriminate.
  inversion Hcols as [|? ? H0 Hcols']; subst.
  inversion Hcols' as [|? ? H1 _]; subst.
  destruct r0 as [|a [|b [|? ?]]]; try discriminate.
  destruct r1 as [|c [|d [|? ?]]]; try discriminate.
  unfold is_upper_factor in Hup. apply andb_true_iff in Hup.
  destruct Hup as [Htri Hprod].
  unfold upper_triangular, entry in Htri. simpl in Htri.
  rewrite !andb_true_r in Htri. apply Qeq_bool_iff in Htri.
  unfold meqb, mprod, transpose, column, dot in Hprod. simpl in Hprod.
  rewrite !andb_true_r in Hprod.
  apply andb_true_iff in Hprod. destruct Hprod as [Hrow0 _].
  apply andb_true_iff in Hrow0. destruct Hrow0 as [_ H01].
  apply Qeq_bool_iff in H01.
  unfold lower_triangular, upper_triangular, entry, transpose, column. simpl.
  rewrite !andb_true_r.
  destruct (Qeq_bool b 0) eqn:Eb; [|reflexivity].
  apply Qeq_bool_iff in Eb. exfalso.
  rewrite Eb, Htri in H01.
  assert (Hz : (a * 0 + (0 * d + 0) == 0)%Q) by ring.
  rewrite Hz in H01. discriminate.
Qed.

(** C2.  The function is to compute the lower Cholesky factor [L] with
    [M = L @ L.T] before whitening with [Linv @ K @ Linv.T].  It calls
    [la.cholesky(M)] with scipy's default [lower=False] and so works with the
    upper factor: for [M = [[1, 1], [1, 2]]] its [L] is [[1, 1], [0, 1]],
    which is not lower triangular and has [L @ L.T = [[2, 1], [1, 1]]].
    With [K = [[3, 2], [2, 2]]] the whitened matrix is [diag(1, 2)] and the
    returned values [1] and [2] are not eigenvalues of the system:
    [K - lam * M] is regular for both. *)
Theorem modes_cholesky_factor_is_upper :
  let M := [[1; 1]; [1; 2]]%Q in
  let K := [[3; 2]; [2; 2]]%Q in
  let U := [[1; 1]; [0; 1]]%Q in
  let Uinv := [[1; -1]; [0; 1]]%Q in
  let la_cholesky := cholesky_answer_at M U in
  let la_inv := answer_at U Uinv in
  let la_eig := eig_answer_at [[1; 0]; [0; 2]]%Q ([real 1; real 2], eye 2 2) in
  is_upper_factor U M = true /\
  meqb (mprod Uinv U) (eye 2 2) = true /\
  exists loc,
    modes_body la_eig argsort_insertion la_cholesky la_inv M K = Ok loc /\
    loc_L loc = U /\
    lower_triangular (loc_L loc) = false /\
    mprod (loc_L loc) (transpose (loc_L loc)) = [[2; 1]; [1; 1]]%Q /\
    is_lower_factor (loc_L loc) M = false /\
    loc_lam loc = [real 1; real 2] /\
    ~ (det2 (pencil K M 1) == 0)%Q /\
    ~ (det2 (pencil K M 2) == 0)%Q.
Proof.
  cbv zeta. split; [reflexivity|]. split; [reflexivity|].
  eexists. split; [reflexivity|]. cbn [loc_L loc_lam].
  repeat split; try reflexivity; intros Hdet; vm_compute in Hdet; discriminate.
Qed.

(** C9.  [Sinv] is to be the inverse of [S].  The function returns
    [Sinv = P.T @ Linv], and [Sinv @ S = P.T @ Linv @ Linv @ P]: for
    [M = diag(4, 4)] and [K = diag(4, 8)] it returns
    [S = Sinv = diag(1/2, 1/2)], whose product is [diag(1/4, 1/4)]. *)
Theorem modes_Sinv_not_inverse :
  let M := [[4; 0]; [0; 4]]%Q in
  let K := [[4; 0]; [0; 8]]%Q in
  let L := [[2; 0]; [0; 2]]%Q in
  let Linv := [[1 # 2; 0]; [0; 1 # 2]]%Q in
  let la_cholesky := cholesky_answer_at M L in
  let la_inv := answer_at L Linv in
  let la_eig := eig_answer_at [[1; 0]; [0; 2]]%Q ([real 1; real 2], eye 2 2) in
  is_upper_factor L M = true /\
  is_lower_factor L M = true /\
  meqb (mprod Linv L) (eye 2 2) = true /\
  exists lam P S Sinv,
    modes_system_undamped la_eig argsort_insertion la_cholesky la_inv M K
      = Ok (lam, P, S, Sinv) /\
    meqb S Linv = true /\
    meqb Sinv Linv = true /\
    meqb (mprod Sinv S) [[1 # 4; 0]; [0; 1 # 4]]%Q = true /\
    meqb (mprod Sinv S) (eye 2 2) = false.
Proof.
  cbv zeta. repeat (split; [reflexivity|]).
  do 4 eexists. split; [reflexivity|].
  repeat split; reflexivity.
Qed.

(** ** Arrays: shapes, columns and column assignment *)

Section ArrayFacts.

Context {F : Type} {SF : Scalar F}.

Lemma zeros_shape (r c : nat) : has_shape r c (zeros r c : matrix F).
Proof.
  unfold zeros. split.
  - apply repeat_length.
  - apply Forall_forall. intros row Hrow.
    apply repeat_spec in Hrow. subst. apply repeat_length.
Qed.

Lemma eye_shape (r c : nat) : has_shape r c (eye r c : matrix F).
Proof.
  unfold eye. split.
  - now rewrite length_map, length_seq.
  - apply Forall_forall. intros row Hrow.
    apply in_map_iff in Hrow. destruct Hrow as (i & <- & _).
    now rewrite length_map, length_seq.
Qed.

Lemma get_col_ok (X : matrix F) (r c j : nat) :
  has_shape r c X -> j < c -> get_col X j = Ok (column X j).
Proof.
  intros [_ Hrows] Hj. unfold get_col, column.
  apply mapM_ok. intros row Hin. apply getitem_nth.
  rewrite Forall_forall in Hrows. now rewrite (Hrows row Hin).
Qed.

Lemma column_length (X : matrix F) (j : nat) : length (column X j) = length X.
Proof. unfold column. apply length_map. Qed.

Lemma set_nth_length (row : list F) (j : nat) (x : F) :
  j < length row -> length (set_nth row j x) = length row.
Proof.
  intros Hj. unfold set_nth.
  rewrite length_app, length_firstn. cbn [length]. rewrite length_skipn. lia.
Qed.

Lemma nth_set_nth_eq (row : list F) (j : nat) (x d : F) :
  j < length row -> nth j (set_nth row j x) d = x.
Proof.
  intros Hj. unfold set_nth.
  rewrite app_nth2; rewrite length_firstn, Nat.min_l by lia; [|lia].
  now rewrite Nat.sub_diag.
Qed.

Lemma nth_set_nth_ne (row : list F) (i j : nat) (x d : F) :
  j < length row -> i <> j -> nth i (set_nth row j x) d = nth i row d.
Proof.
  intros Hj Hij. unfold set_nth.
  destruct (Nat.lt_ge_cases i j) as [Hlt|Hge].
  - rewrite app_nth1 by (rewrite length_firstn; lia).
    rewrite nth_firstn. destruct (Nat.ltb_spec i j); [reflexivity|lia].
  - rewrite app_nth2; rewrite length_firstn, Nat.min_l by lia; [|lia].
    destruct (i - j) as [|k] eqn:E; [lia|]. cbn [nth].
    rewrite nth_skipn. f_equal. lia.
Qed.

Lemma set_col_ok (X : matrix F) (r c j : nat) (v : list F) :
  has_shape r c X -> j < c -> length v = r ->
  set_col X j v = Ok (assign_col X j v).
Proof.
  intros [Hr Hrows] Hj Hv. unfold set_col.
  assert (Hin : forallb (fun row => Nat.ltb j (length row)) X = true).
  { apply forallb_forall. intros row Hrow. apply Nat.ltb_lt.
    rewrite Forall_forall in Hrows. now rewrite (Hrows row Hrow). }
  rewrite Hin. simpl.
  now rewrite (proj2 (Nat.eqb_eq _ _)) by congruence.
Qed.

Lemma assign_col_shape (X : matrix F) (r c j : nat) (v : list F) :
  has_shape r c X -> j < c -> length v = r ->
  has_shape r c (assign_col X j v).
Proof.
  intros [Hr Hrows] Hj Hv. unfold assign_col. split.
  - rewrite length_map, length_combine. lia.
  - apply Forall_forall. intros row Hrow.
    apply in_map_iff in Hrow. destruct Hrow as ([row0 x] & <- & Hin).
    apply in_combine_l in Hin. simpl.
    rewrite Forall_forall in Hrows.
    rewrite set_nth_length; rewrite (Hrows row0 Hin); [reflexivity|exact Hj].
Qed.

Lemma column_assign_col_eq (X : matrix F) (c j : nat) (v : list F) :
  Forall (fun row => length row = c) X -> j < c -> length v = length X ->
  column (assign_col X j v) j = v.
Proof.
  intros Hrows Hj. revert v.
  induction Hrows as [|row X Hrow _ IH]; intros v Hv.
  - destruct v; [reflexivity|discriminate].
  - destruct v as [|x v]; [discriminate|].
    unfold column, assign_col in *. simpl. f_equal.
    + apply nth_set_nth_eq. now rewrite Hrow.
    + apply IH. simpl in Hv. lia.
Qed.

Lemma column_assign_col_ne (X : matrix F) (c i j : nat) (v : list F) :
  Forall (fun row => length row = c) X -> j < c -> length v = length X ->
  i <> j -> column (assign_col X j v) i = column X i.
Proof.
  intros Hrows Hj. revert v.
  induction Hrows as [|row X Hrow _ IH]; intros v Hv Hij.
  - destruct v; reflexivity.
  - destruct v as [|x v]; [discriminate|].
    unfold column, assign_col in *. simpl. f_equal.
    + apply nth_set_nth_ne; [now rewrite Hrow|exact Hij].
    + apply IH; [simpl in Hv; lia|exact Hij].
Qed.

Lemma matvec_ok (A : matrix F) (r c : nat) (x : list F) :
  has_shape r c A -> length x = c ->
  matvec A x = Ok (map (fun row => dot row x) A).
Proof.
  intros [_ Hrows] Hx. unfold matvec.
  assert (Hin : forallb (fun row => Nat.eqb (length row) (length x)) A = true).
  { apply forallb_forall. intros row Hrow. apply Nat.eqb_eq.
    rewrite Forall_forall in Hrows. now rewrite (Hrows row Hrow). }
  now rewrite Hin.
Qed.

Lemma matmul_ok (A B : matrix F) (r c : nat) :
  has_shape r c A -> length B = c ->
  matmul A B = Ok (map (fun row => map (dot row) (transpose B)) A).
Proof.
  intros [_ Hrows] HB. unfold matmul.
  assert (Hin : forallb (fun row => Nat.eqb (length row) (length B)) A = true).
  { apply forallb_forall. intros row Hrow. apply Nat.eqb_eq.
    rewrite Forall_forall in Hrows. now rewrite (Hrows row Hrow). }
  now rewrite Hin.
Qed.

Lemma hstack_ok (A B : matrix F) (r c1 c2 : nat) :
  has_shape r c1 A -> has_shape r c2 B ->
  hstack A B = Ok (map (fun p => fst p ++ snd p) (combine A B)) /\
  has_shape r (c1 + c2) (map (fun p => fst p ++ snd p) (combine A B)).
Proof.
  intros [HrA HA] [HrB HB]. unfold hstack.
  rewrite (proj2 (Nat.eqb_eq _ _)) by congruence.
  split; [reflexivity|]. split.
  - rewrite length_map, length_combine. lia.
  - apply Forall_forall. intros row Hrow.
    apply in_map_iff in Hrow. destruct Hrow as ([a b] & <- & Hin).
    rewrite Forall_forall in HA, HB. simpl. rewrite length_app.
    rewrite (HA a (in_combine_l _ _ _ _ Hin)).
    now rewrite (HB b (in_combine_r _ _ _ _ Hin)).
Qed.

Lemma vstack_ok (A B : matrix F) (r1 r2 c : nat) :
  has_shape r1 c A -> has_shape r2 c B ->
  vstack A B = Ok (A ++ B) /\ has_shape (r1 + r2) c (A ++ B).
Proof.
  intros [HrA HA] [HrB HB].
  assert (Hall : Forall (fun row => length row = c) (A ++ B)).
  { apply Forall_app. now split. }
  unfold vstack.
  assert (Hin : forallb (fun row => Nat.eqb (length row) (ncols (A ++ B)))
                        (A ++ B) = true).
  { apply forallb_forall. intros row Hrow. apply Nat.eqb_eq.
    rewrite Forall_forall in Hall. rewrite (Hall row Hrow).
    destruct (A ++ B) as [|row0 rest]; [destruct Hrow|].
    simpl. symmetry. apply Hall. now left. }
  rewrite Hin. split; [reflexivity|]. split.
  - rewrite length_app. lia.
  - exact Hall.
Qed.

End ArrayFacts.

(** ** The time grid *)

Lemma linspace_negative (start stop : Q) (num : Z) :
  (num < 0)%Z -> linspace start stop num = Raise ValueError.
Proof.
  intros Hneg. unfold linspace.
  now rewrite (proj2 (Z.ltb_lt num 0) Hneg).
Qed.

(** Fewer than two samples: the grid has no position [1]. *)
Lemma linspace_short (start stop : Q) (num : Z) :
  (0 <= num < 2)%Z ->
  exists t, linspace start stop num = Ok t /\ getitem t 1 = Raise IndexError.
Proof.
  intros Hnum. unfold linspace.
  rewrite (proj2 (Z.ltb_ge num 0)) by lia.
  rewrite (proj2 (Z.ltb_ge 1 num)) by lia.
  eexists. split; [reflexivity|].
  apply getitem_out. rewrite !length_map, length_seq. lia.
Qed.

Lemma set_last_length (y : list Q) (stop : Q) :
  y <> [] -> length (set_last y stop) = length y.
Proof.
  intros Hy. unfold set_last.
  rewrite length_app, removelast_firstn_len, length_firstn. simpl.
  destruct y; [congruence|simpl; lia].
Qed.

Lemma set_last_nth_before (y : list Q) (stop : Q) (i : nat) :
  i + 1 < length y -> nth i (set_last y stop) 0%Q = nth i y 0%Q.
Proof.
  intros Hi. unfold set_last.
  rewrite removelast_firstn_len.
  rewrite app_nth1 by (rewrite length_firstn; lia).
  rewrite nth_firstn. destruct (Nat.ltb_spec i (Nat.pred (length y))); [reflexivity|lia].
Qed.

Lemma set_last_nth_last (y : list Q) (stop : Q) :
  y <> [] -> nth (length y - 1) (set_last y stop) 0%Q = stop.
Proof.
  intros Hy. unfold set_last.
  rewrite removelast_firstn_len.
  rewrite app_nth2; rewrite length_firstn; [|lia].
  replace (length y - 1 - Nat.min (Nat.pred (length y)) (length y)) with 0 by lia.
  reflexivity.
Qed.

(** Two samples or more: the grid runs from [0] to [stop] in equal steps of
    [stop / (num - 1)], the last sample being [stop] itself. *)
Lemma linspace_grid (stop : Q) (num : Z) :
  (2 <= num)%Z ->
  exists t,
    linspace 0 stop num = Ok t /\
    length t = Z.to_nat num /\
    (forall i, i < Z.to_nat num ->
       (nth i t 0 == inject_Z (Z.of_nat i) * (stop / inject_Z (num - 1)))%Q) /\
    nth (Z.to_nat num - 1) t 0%Q = stop.
Proof.
  intros Hnum. unfold linspace.
  rewrite (proj2 (Z.ltb_ge num 0)) by lia.
  rewrite (proj2 (Z.ltb_lt 1 num)) by lia.
  set (step := ((stop - 0) / inject_Z (num - 1))%Q).
  set (y := map (fun yi => (yi * step + 0)%Q)
                (map (fun i => inject_Z (Z.of_nat i)) (seq 0 (Z.to_nat num)))).
  assert (Hlen : length y = Z.to_nat num).
  { unfold y. now rewrite !length_map, length_seq. }
  assert (Hy : y <> []).
  { intros E. rewrite E in Hlen. simpl in Hlen. lia. }
  assert (Hnth : forall i, i < Z.to_nat num ->
             nth i y 0%Q = (inject_Z (Z.of_nat i) * step + 0)%Q).
  { intros i Hi. unfold y. rewrite map_map.
    rewrite (nth_indep _ 0%Q
               ((fun k => (inject_Z (Z.of_nat k) * step + 0)%Q) 0))
      by (rewrite length_map, length_seq; exact Hi).
    rewrite (map_nth (fun k => (inject_Z (Z.of_nat k) * step + 0)%Q)).
    now rewrite seq_nth by exact Hi. }
  assert (Hd : ~ (inject_Z (num - 1) == 0)%Q).
  { unfold Qeq. simpl. lia. }
  exists (set_last y stop). split; [reflexivity|]. split; [|split].
  - now rewrite set_last_length.
  - intros i Hi.
    destruct (Nat.eq_dec i (Z.to_nat num - 1)) as [->|Hne].
    + rewrite <- Hlen, set_last_nth_last by exact Hy.
      rewrite Hlen.
      replace (Z.of_nat (Z.to_nat num - 1)) with (num - 1)%Z by lia.
      now rewrite Qmult_div_r.
    + rewrite set_last_nth_before by lia.
      rewrite Hnth by exact Hi. unfold step, Qdiv. ring.
  - rewrite <- Hlen. now apply set_last_nth_last.
Qed.

(** Consecutive samples of the grid differ by [stop / (num - 1)]. *)
Lemma grid_spacing (t : list Q) (stop : Q) (num : Z) (i : nat) :
  (forall k, k < Z.to_nat num ->
     (nth k t 0 == inject_Z (Z.of_nat k) * (stop / inject_Z (num - 1)))%Q) ->
  i + 1 < Z.to_nat num ->
  (nth (i + 1) t 0 - nth i t 0 == stop / inject_Z (num - 1))%Q.
Proof.
  intros Hnth Hi.
  rewrite (Hnth (i + 1)) by lia. rewrite (Hnth i) by lia.
  rewrite Nat2Z.inj_add, inject_Z_plus. simpl (inject_Z (Z.of_nat 1)).
  ring.
Qed.

(** ** [response_system_undamped]: the state matrix and the loop *)

Lemma ncols_square (n : nat) (K : matrix Q) : has_shape n n K -> ncols K = n.
Proof.
  intros [Hn Hrows]. destruct K as [|row K]; simpl in *.
  - exact Hn.
  - now inversion Hrows.
Qed.

Lemma state_matrix_ok (la_pinv : matrix Q -> result (matrix Q))
  (M K Mp : matrix Q) (n : nat) :
  length M = n ->
  has_shape n n K ->
  la_pinv M = Ok Mp ->
  has_shape n n Mp ->
  state_matrix la_pinv M K =
    Ok (block2x2 (zeros n n) (eye n n) (mprod (mopp Mp) K) (zeros n n)) /\
  has_shape (2 * n) (2 * n)
    (block2x2 (zeros n n) (eye n n) (mprod (mopp Mp) K) (zeros n n)).
Proof.
  intros HM HK Hpinv [HMp_rows HMp_cols].
  assert (Hopp : has_shape n n (mopp Mp)).
  { unfold mopp. split; [now rewrite length_map|].
    rewrite Forall_map. eapply Forall_impl; [|exact HMp_cols].
    simpl. intros row Hrow. now rewrite length_map. }
  assert (Hprod : has_shape n n (mprod (mopp Mp) K)).
  { unfold mprod. split; [rewrite length_map; apply Hopp|].
    rewrite Forall_map. apply Forall_forall. intros row _.
    unfold transpose. now rewrite !length_map, length_seq, (ncols_square n K HK). }
  destruct (hstack_ok (zeros n n) (eye n n) n n n (zeros_shape n n) (eye_shape n n))
    as [Htop Htop_shape].
  destruct (hstack_ok (mprod (mopp Mp) K) (zeros n n) n n n Hprod (zeros_shape n n))
    as [Hbot Hbot_shape].
  destruct (vstack_ok _ _ n n (n + n) Htop_shape Hbot_shape) as [Hv Hv_shape].
  unfold state_matrix, nrows. rewrite HM, Htop. simpl. rewrite Hpinv. simpl.
  rewrite (matmul_ok (mopp Mp) K n n Hopp (proj1 HK)). simpl.
  fold (mprod (mopp Mp) K). rewrite Hbot. simpl.
  unfold block2x2. split; [exact Hv|].
  replace (n + (n + 0)) with (n + n) by lia. exact Hv_shape.
Qed.

Section Propagation.

Variable Ad : matrix Q.
Variable x : list Q.
Variables r N : nat.
Hypothesis Ad_shape : has_shape r r Ad.
Hypothesis x_length : length x = r.

Lemma apply_times_length (k : nat) : length (apply_times Ad k x) = r.
Proof.
  destruct k as [|k]; simpl.
  - exact x_length.
  - rewrite length_map. apply Ad_shape.
Qed.

Lemma step_column_spec (k : nat) (X : matrix Q) :
  k + 1 < N -> columns_upto Ad x r N k X ->
  exists X', step_column Ad k X = Ok X' /\ columns_upto Ad x r N (k + 1) X'.
Proof.
  intros Hk [Hshape Hcols].
  assert (Hy : length (apply_times Ad (S k) x) = r)
    by apply apply_times_length.
  exists (assign_col X (k + 1) (apply_times Ad (S k) x)).
  split.
  - unfold step_column.
    rewrite (get_col_ok X r N k Hshape) by lia. simpl.
    rewrite (Hcols k (Nat.le_refl k)).
    rewrite (matvec_ok Ad r r _ Ad_shape (apply_times_length k)). simpl.
    change (map (fun row => dot row (apply_times Ad k x)) Ad)
      with (apply_times Ad (S k) x).
    apply (set_col_ok X r N); [exact Hshape|lia|exact Hy].
  - split.
    + apply assign_col_shape; [exact Hshape|lia|exact Hy].
    + intros j Hj. destruct Hshape as [Hrows Hrow_len].
      destruct (Nat.eq_dec j (k + 1)) as [->|Hne].
      * rewrite (column_assign_col_eq X N) by (try assumption; lia).
        now rewrite Nat.add_1_r.
      * rewrite (column_assign_col_ne X N) by (try assumption; lia).
        apply Hcols. lia.
Qed.

Lemma for_each_step_column (m : nat) :
  forall (k : nat) (X : matrix Q),
    k + m < N -> columns_upto Ad x r N k X ->
    exists X', for_each (seq k m) (step_column Ad) X = Ok X' /\
               columns_upto Ad x r N (k + m) X'.
Proof.
  induction m as [|m IH]; intros k X Hk Hinv; simpl.
  - exists X. split; [reflexivity|]. now rewrite Nat.add_0_r.
  - destruct (step_column_spec k X ltac:(lia) Hinv) as (X1 & Hstep & Hinv1).
    rewrite Hstep. simpl.
    rewrite Nat.add_1_r in Hinv1.
    destruct (IH (S k) X1 ltac:(lia) Hinv1) as (X' & Hrun & Hinv').
    exists X'. split; [exact Hrun|].
    now replace (k + S m) with (S k + m) by lia.
Qed.

(** The array before the loop: zeros, the initial state in column [0]. *)
Lemma initial_columns :
  0 < N ->
  set_col (zeros r N) 0 x = Ok (assign_col (zeros r N) 0 x) /\
  columns_upto Ad x r N 0 (assign_col (zeros r N) 0 x).
Proof.
  intros HN.
  assert (Hz := zeros_shape (F := Q) r N).
  split; [now apply (set_col_ok _ r N)|]. split.
  - now apply assign_col_shape.
  - intros j Hj. replace j with 0 by lia. simpl.
    apply (column_assign_col_eq _ N); [apply Hz|exact HN|].
    rewrite x_length. symmetry. apply Hz.
Qed.

End Propagation.

(** ** Binary64 rounding *)

Lemma pow2_nonneg_eq (e : Z) : (0 <= e)%Z -> pow2 e = inject_Z (2 ^ e).
Proof.
  intros He. destruct e as [|p|p]; [reflexivity|reflexivity|lia].
Qed.

Lemma pow2_pos (e : Z) : (0 < pow2 e)%Q.
Proof.
  destruct e as [|p|p]; unfold pow2, Qlt, inject_Z; cbn [Qnum Qden].
  - lia.
  - assert (0 < 2 ^ Z.pos p)%Z by (apply Z.pow_pos_nonneg; lia). lia.
  - lia.
Qed.

Lemma pow2_le (e e' : Z) : (e <= e')%Z -> (pow2 e <= pow2 e')%Q.
Proof.
  intros Hle.
  destruct e as [|p|p], e' as [|p'|p']; try lia;
    unfold pow2, Qle, inject_Z; cbn [Qnum Qden];
    rewrite ?Pos2Z.inj_pow.
  - lia.
  - assert (0 < 2 ^ Z.pos p')%Z by (apply Z.pow_pos_nonneg; lia). lia.
  - assert (2 ^ Z.pos p <= 2 ^ Z.pos p')%Z by (apply Z.pow_le_mono_r; lia). lia.
  - assert (0 < 2 ^ Z.pos p)%Z by (apply Z.pow_pos_nonneg; lia). lia.
  - assert (0 < 2 ^ Z.pos p)%Z by (apply Z.pow_pos_nonneg; lia).
    assert (0 < 2 ^ Z.pos p')%Z by (apply Z.pow_pos_nonneg; lia). nia.
  - assert (2 ^ Z.pos p' <= 2 ^ Z.pos p)%Z by (apply Z.pow_le_mono_r; lia). lia.
Qed.

Lemma nearest_even_cases (q : Q) :
  nearest_even q = Qfloor q \/
  (nearest_even q = (Qfloor q + 1)%Z /\ (1 # 2 <= q - inject_Z (Qfloor q))%Q).
Proof.
  unfold nearest_even. cbv zeta.
  destruct (Qlt_bool (q - inject_Z (Qfloor q)) (1 # 2)) eqn:E1; [now left|].
  assert (Hhalf : (1 # 2 <= q - inject_Z (Qfloor q))%Q).
  { destruct (Qlt_le_dec (q - inject_Z (Qfloor q)) (1 # 2)) as [Hlt|Hge];
      [|exact Hge].
    apply Qlt_bool_iff in Hlt. congruence. }
  destruct (Qlt_bool (1 # 2) (q - inject_Z (Qfloor q))); [now right|].
  destruct (Z.even (Qfloor q)); [now left|now right].
Qed.

Lemma nearest_even_le (q : Q) : (inject_Z (nearest_even q) <= q + (1 # 2))%Q.
Proof.
  assert (Hf := Qfloor_le q).
  destruct (nearest_even_cases q) as [->|[-> Hhalf]].
  - lra.
  - rewrite inject_Z_plus. change (inject_Z 1) with 1%Q. lra.
Qed.

Lemma nearest_even_nonneg (q : Q) : (0 <= q)%Q -> (0 <= nearest_even q)%Z.
Proof.
  intros Hq. assert (Hf : (0 <= Qfloor q)%Z).
  { change 0%Z with (Qfloor 0). now apply Qfloor_resp_le. }
  destruct (nearest_even_cases q) as [->|[-> _]]; lia.
Qed.

Lemma nearest_even_nonpos (q : Q) : (q <= 0)%Q -> (nearest_even q <= 0)%Z.
Proof.
  intros Hq. assert (Hf : (Qfloor q <= 0)%Z).
  { change 0%Z with (Qfloor 0). now apply Qfloor_resp_le. }
  destruct (nearest_even_cases q) as [->|[-> Hhalf]]; [exact Hf|].
  destruct (Z.eq_dec (Qfloor q) 0) as [E|Hne]; [|lia].
  exfalso. rewrite E in Hhalf. change (inject_Z 0) with 0%Q in Hhalf. lra.
Qed.

Lemma floor_log2_upper (x : Q) (k : Z) :
  (0 < x)%Q -> (0 <= k)%Z -> (x < pow2 (k + 1))%Q -> (floor_log2 x <= k)%Z.
Proof.
  intros Hx Hk Hlt. unfold floor_log2. cbv zeta.
  set (l := (Z.log2 (Qnum x) - Z.log2 (Z.pos (Qden x)))%Z).
  destruct (Qle_bool (pow2 l) x) eqn:E.
  - apply Qle_bool_iff in E.
    destruct (Z.le_gt_cases l k) as [H|H]; [exact H|].
    exfalso. assert (Hmono := pow2_le (k + 1) l ltac:(lia)). lra.
  - destruct (Z.le_gt_cases l (k + 1)) as [H|H]; [lia|].
    exfalso.
    rewrite pow2_nonneg_eq in Hlt by lia.
    destruct x as [p d]. unfold Qlt, inject_Z in Hx, Hlt.
    cbn [Qnum Qden] in *.
    assert (Hp : (0 < p)%Z) by lia.
    destruct (Z.log2_spec p Hp) as [Hp1 _].
    destruct (Z.log2_spec (Z.pos d) ltac:(lia)) as [_ Hd2].
    assert (Hlogd : (0 <= Z.log2 (Z.pos d))%Z) by apply Z.log2_nonneg.
    assert (Hpow : (2 ^ (k + 1) * 2 ^ Z.succ (Z.log2 (Z.pos d))
                    <= 2 ^ Z.log2 p)%Z).
    { rewrite <- Z.pow_add_r by lia. apply Z.pow_le_mono_r; lia. }
    assert (0 < 2 ^ (k + 1))%Z by (apply Z.pow_pos_nonneg; lia).
    nia.
Qed.

Lemma Qabs_of_pos (x : Q) : (0 < x)%Q -> Qabs x = x.
Proof.
  destruct x as [p d]. unfold Qlt. cbn [Qnum Qden]. intros Hp.
  unfold Qabs. f_equal. apply Z.abs_eq. lia.
Qed.

Lemma round_binary64_small (x : Q) (k : Z) :
  (0 < x)%Q -> (0 <= k)%Z -> (x < pow2 (k + 1))%Q ->
  (x + (1 # 2) * pow2 (k - 52) < pow2 1024)%Q ->
  exists y, round_binary64 x = Finite y /\ (0 <= y)%Q /\
            (y <= x + (1 # 2) * pow2 (k - 52))%Q.
Proof.
  intros Hx Hk Hlt Hfin. unfold round_binary64. cbv zeta.
  destruct (Qeq_bool x 0) eqn:E0.
  { apply Qeq_bool_iff in E0. lra. }
  rewrite (Qabs_of_pos x Hx).
  set (e := Z.max (floor_log2 x - 52) (-1074)).
  assert (He : (e <= k - 52)%Z).
  { assert (Hl := floor_log2_upper x k Hx Hk Hlt). unfold e. lia. }
  assert (Hpe := pow2_pos e).
  assert (Hmono := pow2_le e (k - 52) He).
  set (m := nearest_even (x / pow2 e)).
  assert (Hdiv : (0 <= x / pow2 e)%Q).
  { apply Qle_shift_div_l; [exact Hpe|lra]. }
  assert (Hm0 : (0 <= m)%Z) by now apply nearest_even_nonneg.
  assert (Hm1 := nearest_even_le (x / pow2 e)). fold m in Hm1.
  assert (Hxe : (x / pow2 e * pow2 e == x)%Q).
  { field. lra. }
  assert (Hy0 : (0 <= inject_Z m * pow2 e)%Q).
  { apply Qmult_le_0_compat; [|lra].
    change 0%Q with (inject_Z 0). rewrite <- Zle_Qle. exact Hm0. }
  assert (Hy1 : (inject_Z m * pow2 e <= x + (1 # 2) * pow2 (k - 52))%Q).
  { assert (H1 : (inject_Z m * pow2 e <= (x / pow2 e + (1 # 2)) * pow2 e)%Q).
    { apply Qmult_le_compat_r; [exact Hm1|lra]. }
    rewrite Qmult_plus_distr_l, Hxe in H1. lra. }
  destruct (Qle_bool (pow2 1024) (Qabs (inject_Z m * pow2 e))) eqn:Eo.
  - exfalso. apply Qle_bool_iff in Eo.
    rewrite Qabs_pos in Eo by exact Hy0. lra.
  - eexists. split; [reflexivity|]. split; assumption.
Qed.

Lemma round_binary64_nonpos (x : Q) :
  (x <= 0)%Q ->
  match round_binary64 x with
  | Finite y => (y <= 0)%Q
  | Infinite _ => True
  end.
Proof.
  intros Hx. unfold round_binary64. cbv zeta.
  destruct (Qeq_bool x 0); [lra|].
  set (e := Z.max (floor_log2 (Qabs x) - 52) (-1074)).
  destruct (Qle_bool _ _); [exact I|].
  assert (Hpe := pow2_pos e).
  assert (Hdiv : (x / pow2 e <= 0)%Q).
  { apply Qle_shift_div_r; [exact Hpe|lra]. }
  assert (Hm := nearest_even_nonpos _ Hdiv).
  rewrite Zle_Qle in Hm. change (inject_Z 0) with 0%Q in Hm.
  set (m := inject_Z (nearest_even (x / pow2 e))) in *.
  nra.
Qed.

Lemma int_of_Q_bounds (q : Q) (n : Z) :
  (0 <= q)%Q -> (q < inject_Z n)%Q -> (0 <= int_of_Q q < n)%Z.
Proof.
  destruct q as [p d]. unfold Qle, Qlt, int_of_Q, inject_Z. cbn [Qnum Qden].
  intros H0 Hn. split.
  - apply Z.quot_pos; lia.
  - apply Z.quot_lt_upper_bound; lia.
Qed.

Lemma int_of_Q_le (q : Q) : (0 <= q)%Q -> (inject_Z (int_of_Q q) <= q)%Q.
Proof.
  destruct q as [p d]. unfold Qle, int_of_Q, inject_Z. cbn [Qnum Qden].
  intros H0.
  assert (H := Z.mul_quot_le p (Z.pos d) ltac:(lia) ltac:(lia)). lia.
Qed.

Lemma int_of_Q_nonpos (q : Q) : (q <= 0)%Q -> (int_of_Q q <= 0)%Z.
Proof.
  destruct q as [p d]. unfold Qle, int_of_Q. cbn [Qnum Qden]. intros H0.
  assert (Hn : (0 <= - p ÷ Z.pos d)%Z) by (apply Z.quot_pos; lia).
  rewrite Z.quot_opp_l in Hn by lia. lia.
Qed.

Lemma int_of_Q_negative_iff (q : Q) : (int_of_Q q < 0)%Z <-> (q <= -1)%Q.
Proof.
  destruct q as [p d]. unfold Qle, int_of_Q. cbn [Qnum Qden].
  split; intros H.
  - destruct (Z.le_gt_cases p (- Z.pos d)) as [Hle|Hgt]; [lia|].
    exfalso.
    destruct (Z.lt_ge_cases p 0) as [Hneg|Hpos].
    + assert (Hsmall : (- p ÷ Z.pos d = 0)%Z) by (apply Z.quot_small; lia).
      rewrite Z.quot_opp_l in Hsmall by lia. lia.
    + assert (0 <= p ÷ Z.pos d)%Z by (apply Z.quot_pos; lia). lia.
  - assert (Hone : (1 <= - p ÷ Z.pos d)%Z)
      by (apply Z.quot_le_lower_bound; lia).
    rewrite Z.quot_opp_l in Hone by lia. lia.
Qed.

Lemma binary64_bounds (d : binary64) :
  (Z.abs (mantissa d) < 2 ^ 53 /\ -1074 <= exponent d <= 971)%Z.
Proof.
  destruct d as [m e Hb]. cbn [mantissa exponent].
  apply andb_true_iff in Hb. destruct Hb as [Hb He2].
  apply andb_true_iff in Hb. destruct Hb as [Hm He1].
  apply Z.ltb_lt in Hm. apply Z.leb_le in He1. apply Z.leb_le in He2. lia.
Qed.

(** The doubles below [0.008]: [250] times such a number stays more than half
    a unit in the last place below [2]. *)
Lemma binary64_grid (d : binary64) :
  (0 < B2Q d)%Q -> (B2Q d < 8 # 1000)%Q ->
  (250 * B2Q d + (1 # 9007199254740992) < 2)%Q.
Proof.
  intros Hpos Hlt. destruct (binary64_bounds d) as [Hm He].
  unfold B2Q in *. destruct d as [m e Hb]. cbn [mantissa exponent] in *.
  destruct e as [|p|p].
  - exfalso. unfold pow2, Qlt, Qmult, inject_Z in Hpos, Hlt.
    cbn [Qnum Qden] in Hpos, Hlt. lia.
  - exfalso. unfold pow2, Qlt, Qmult, inject_Z in Hpos, Hlt.
    cbn [Qnum Qden] in Hpos, Hlt.
    assert (0 < 2 ^ Z.pos p)%Z by (apply Z.pow_pos_nonneg; lia). nia.
  - unfold pow2, Qlt, Qplus, Qmult, inject_Z in *. cbn [Qnum Qden] in *.
    rewrite ?Pos2Z.inj_mul, ?Pos2Z.inj_pow in *.
    assert (HP : (0 < 2 ^ Z.pos p)%Z) by (apply Z.pow_pos_nonneg; lia).
    destruct (Z.le_gt_cases (Z.pos p) 59) as [Hsmall|Hbig].
    + assert (Hsplit : (2 ^ Z.pos p * 2 ^ (59 - Z.pos p) = 2 ^ 59)%Z).
      { rewrite <- Z.pow_add_r by lia. f_equal. lia. }
      assert (HQ : (0 < 2 ^ (59 - Z.pos p))%Z) by (apply Z.pow_pos_nonneg; lia).
      set (P := (2 ^ Z.pos p)%Z) in *. set (R := (2 ^ (59 - Z.pos p))%Z) in *.
      assert (Hk : (125 * (m * R) < 2 ^ 59)%Z) by nia.
      apply (Z.mul_lt_mono_pos_r R); [exact HQ|].
      assert (HPR : (P * R = 576460752303423488)%Z) by exact Hsplit.
      change (2 ^ 59)%Z with 576460752303423488%Z in Hk.
      nia.
    + assert (Hpow : (2 ^ 60 <= 2 ^ Z.pos p)%Z) by (apply Z.pow_le_mono_r; lia).
      set (P := (2 ^ Z.pos p)%Z) in *.
      change (2 ^ 60)%Z with 1152921504606846976%Z in Hpow.
      change (2 ^ 53)%Z with 9007199254740992%Z in Hm. lia.
Qed.

(** ** The sample count *)

Lemma sample_count_finite (d : binary64) (p : Q) :
  float_mul 250 (B2Q d) = Finite p -> sample_count d = Ok (int_of_Q p).
Proof. intros Hp. unfold sample_count. now rewrite Hp. Qed.

Lemma sample_count_infinite (d : binary64) (s : bool) :
  float_mul 250 (B2Q d) = Infinite s -> sample_count d = Raise OverflowError.
Proof. intros Hp. unfold sample_count. now rewrite Hp. Qed.

(** The product [250 * max_time] for a double [0 < max_time < 0.008]: it is
    finite, not negative and below [2].  No double lies between the real
    number [8/1000] and the double written [0.008], so the bound is the same
    for both readings of [0.008]. *)
Lemma float_mul_short (d : binary64) :
  (0 < B2Q d)%Q -> (B2Q d < 8 # 1000)%Q ->
  exists p, float_mul 250 (B2Q d) = Finite p /\ (0 <= p)%Q /\ (p < 2)%Q.
Proof.
  intros Hpos Hlt.
  assert (Hgrid := binary64_grid d Hpos Hlt).
  assert (Hbig : (2 < pow2 1024)%Q) by (unfold Qlt; vm_compute; reflexivity).
  destruct (round_binary64_small (250 * B2Q d) 0) as (y & Hy & Hge & Hle).
  - lra.
  - lia.
  - change (pow2 (0 + 1)) with 2%Q. lra.
  - change (pow2 (0 - 52)) with (1 # 4503599627370496)%Q. lra.
  - exists y. split; [exact Hy|]. split; [exact Hge|].
    change (pow2 (0 - 52)) with (1 # 4503599627370496)%Q in Hle. lra.
Qed.

Lemma sample_count_short (d : binary64) :
  (0 < B2Q d)%Q -> (B2Q d < 8 # 1000)%Q ->
  exists num, sample_count d = Ok num /\ (0 <= num < 2)%Z.
Proof.
  intros Hpos Hlt.
  destruct (float_mul_short d Hpos Hlt) as (p & Hp & Hge & Hlt2).
  exists (int_of_Q p). split; [now apply sample_count_finite|].
  apply int_of_Q_bounds; [exact Hge|exact Hlt2].
Qed.

(** A product that is not positive does not round to a positive number. *)
Lemma float_mul_nonpos (d : binary64) (p : Q) :
  (B2Q d <= 0)%Q -> float_mul 250 (B2Q d) = Finite p -> (p <= 0)%Q.
Proof.
  intros Hle Hp.
  assert (H := round_binary64_nonpos (250 * B2Q d) ltac:(lra)).
  unfold float_mul in Hp. now rewrite Hp in H.
Qed.

(** A positive product below [2 ^ 53] is rounded by at most one half. *)
Lemma float_mul_moderate (d : binary64) :
  (0 < B2Q d)%Q -> (250 * B2Q d < pow2 53)%Q ->
  exists p, float_mul 250 (B2Q d) = Finite p /\ (0 <= p)%Q /\
            (p <= 250 * B2Q d + (1 # 2))%Q.
Proof.
  intros Hpos Hlt.
  assert (Hbig : (pow2 53 + 1 < pow2 1024)%Q)
    by (unfold Qlt; vm_compute; reflexivity).
  destruct (round_binary64_small (250 * B2Q d) 52) as (y & Hy & Hge & Hle).
  - lra.
  - lia.
  - exact Hlt.
  - change (pow2 (52 - 52)) with 1%Q. lra.
  - exists y. split; [exact Hy|]. split; [exact Hge|].
    change (pow2 (52 - 52)) with 1%Q in Hle. lra.
Qed.

(** Two samples or more need a positive [max_time]. *)
Lemma sample_count_two_positive (d : binary64) (num : Z) :
  sample_count d = Ok num -> (2 <= num)%Z -> (0 < B2Q d)%Q.
Proof.
  intros Hnum Hcount.
  destruct (Qlt_le_dec 0 (B2Q d)) as [Hpos|Hle]; [exact Hpos|exfalso].
  unfold sample_count in Hnum.
  destruct (float_mul 250 (B2Q d)) as [p|s] eqn:Hp; [|discriminate].
  cbn [py_int] in Hnum. injection Hnum as <-.
  assert (Hp0 := float_mul_nonpos d p Hle Hp).
  assert (H := int_of_Q_nonpos p Hp0). lia.
Qed.

(** ** [response_system_undamped]: the run *)

Lemma response_unfold (la_pinv la_expm : matrix Q -> result (matrix Q))
  (M K : matrix Q) (x0 v0 : list Q) (max_time : binary64) (num : Z) :
  sample_count max_time = Ok num ->
  response_system_undamped la_pinv la_expm M K x0 v0 max_time =
    response_on_grid la_pinv la_expm M K x0 v0 (B2Q max_time) num.
Proof. intros Hnum. unfold response_system_undamped. now rewrite Hnum. Qed.

Lemma response_overflow (la_pinv la_expm : matrix Q -> result (matrix Q))
  (M K : matrix Q) (x0 v0 : list Q) (max_time : binary64) (e : pyerror) :
  sample_count max_time = Raise e ->
  response_system_undamped la_pinv la_expm M K x0 v0 max_time = Raise e.
Proof. intros Hnum. unfold response_system_undamped. now rewrite Hnum. Qed.

(** Fewer than two samples: the call aborts at [t[1]], or already in
    [linspace] when the count is negative. *)
Lemma response_aborts (la_pinv la_expm : matrix Q -> result (matrix Q))
  (M K : matrix Q) (x0 v0 : list Q) (max_time : Q) (num : Z) :
  (num < 2)%Z ->
  response_on_grid la_pinv la_expm M K x0 v0 max_time num =
    Raise (if (num <? 0)%Z then ValueError else IndexError).
Proof.
  intros Hfew. unfold response_on_grid.
  destruct (Z.ltb_spec num 0) as [Hneg|Hpos].
  - now rewrite linspace_negative.
  - destruct (linspace_short 0 max_time num) as (t & Ht & Hout); [lia|].
    rewrite Ht. simpl. now rewrite Hout.
Qed.

(** Two samples or more, arrays of matching shape, and a pseudo-inverse and
    an exponential that are returned: the call returns the grid and the
    array of iterates. *)
Lemma response_run (la_pinv la_expm : matrix Q -> result (matrix Q))
  (M K Mp : matrix Q) (x0 v0 : list Q) (max_time : Q) (num : Z) (n : nat) :
  length M = n ->
  has_shape n n K ->
  length x0 = n ->
  length v0 = n ->
  la_pinv M = Ok Mp ->
  has_shape n n Mp ->
  (forall t, linspace 0 max_time num = Ok t ->
     exists Ad,
       la_expm (mscale (block2x2 (zeros n n) (eye n n)
                                 (mprod (mopp Mp) K) (zeros n n))
                       (nth 1 t 0 - nth 0 t 0)%Q) = Ok Ad /\
       has_shape (2 * n) (2 * n) Ad) ->
  (2 <= num)%Z ->
  exists t X Ad,
    response_on_grid la_pinv la_expm M K x0 v0 max_time num = Ok (t, X) /\
    linspace 0 max_time num = Ok t /\
    la_expm (mscale (block2x2 (zeros n n) (eye n n)
                              (mprod (mopp Mp) K) (zeros n n))
                    (nth 1 t 0 - nth 0 t 0)%Q) = Ok Ad /\
    columns_upto Ad (x0 ++ v0) (2 * n) (length t) (length t - 1) X.
Proof.
  intros HM HK Hx0 Hv0 Hpinv HMp Hexpm Hcount.
  destruct (linspace_grid max_time num Hcount) as (t & Ht & Hlen & _).
  destruct (Hexpm t Ht) as (Ad & HAd & HAd_shape).
  destruct (state_matrix_ok la_pinv M K Mp n HM HK Hpinv HMp) as [HA _].
  assert (Hx : length (x0 ++ v0) = 2 * n) by (rewrite length_app; lia).
  assert (HN : 2 <= length t) by lia.
  destruct (initial_columns Ad (x0 ++ v0) (2 * n) (length t) Hx ltac:(lia))
    as [Hset Hinit].
  destruct (for_each_step_column Ad (x0 ++ v0) (2 * n) (length t)
              HAd_shape Hx (length t - 1) 0 _ ltac:(lia) Hinit)
    as (X & Hloop & Hinv).
  exists t, X, Ad.
  split; [|split; [exact Ht|split; [exact HAd|exact Hinv]]].
  unfold response_on_grid.
  rewrite Ht. cbn [bind].
  rewrite (getitem_nth t 1 0%Q) by lia. cbn [bind].
  rewrite (getitem_nth t 0 0%Q) by lia. cbn [bind].
  rewrite HA. cbn [bind]. unfold nrows. rewrite HM, Hset. cbn [bind].
  rewrite HAd. cbn [bind]. now rewrite Hloop.
Qed.

(** ** [response_system_undamped]: the claims *)

(** C3 (as amended).  For every double [max_time] with
    [int(250 * max_time) >= 2], the product being the binary64 one, and
    arrays of matching sizes on which [pinv] and [expm] return, the call
    returns a trajectory whose column count is [int(250 * max_time)], the
    product truncated toward zero, and the time samples run from [0] to
    [max_time] inclusive in equal steps of [max_time / (sample_count - 1)]. *)
Theorem response_sample_count (la_pinv la_expm : matrix Q -> result (matrix Q))
  (M K Mp : matrix Q) (x0 v0 : list Q) (max_time : binary64) (num : Z)
  (n : nat) :
  length M = n ->
  has_shape n n K ->
  length x0 = n ->
  length v0 = n ->
  la_pinv M = Ok Mp ->
  has_shape n n Mp ->
  (forall t, linspace 0 (B2Q max_time) num = Ok t ->
     exists Ad,
       la_expm (mscale (block2x2 (zeros n n) (eye n n)
                                 (mprod (mopp Mp) K) (zeros n n))
                       (nth 1 t 0 - nth 0 t 0)%Q) = Ok Ad /\
       has_shape (2 * n) (2 * n) Ad) ->
  py_int (float_mul 250 (B2Q max_time)) = Ok num ->
  (2 <= num)%Z ->
  exists t X,
    response_system_undamped la_pinv la_expm M K x0 v0 max_time = Ok (t, X) /\
    Z.of_nat (length t) = num /\
    has_shape (2 * n) (length t) X /\
    (nth 0 t 0 == 0)%Q /\
    nth (length t - 1) t 0%Q = B2Q max_time /\
    forall i, i + 1 < length t ->
      (nth (i + 1) t 0 - nth i t 0
         == B2Q max_time / inject_Z (Z.of_nat (length t) - 1))%Q.
Proof.
  intros HM HK Hx0 Hv0 Hpinv HMp Hexpm Hnum Hcount.
  change (sample_count max_time = Ok num) in Hnum.
  destruct (response_run la_pinv la_expm M K Mp x0 v0 (B2Q max_time) num n
              HM HK Hx0 Hv0 Hpinv HMp Hexpm Hcount)
    as (t & X & Ad & Hrun & Ht & _ & Hshape & _).
  rewrite <- (response_unfold la_pinv la_expm M K x0 v0 max_time num Hnum)
    in Hrun.
  destruct (linspace_grid (B2Q max_time) num Hcount)
    as (t' & Ht' & Hlen & Hnth & Hlast).
  assert (t' = t) by congruence. subst t'.
  assert (HN : Z.of_nat (length t) = num) by lia.
  exists t, X. repeat split; try assumption.
  - apply Hshape.
  - apply Hshape.
  - rewrite (Hnth 0) by lia. simpl (inject_Z (Z.of_nat 0)). ring.
  - now rewrite Hlen.
  - intros i Hi. rewrite HN.
    apply (grid_spacing t (B2Q max_time) num i Hnth). lia.
Qed.

Lemma response_sample_count_witness :
  exists t X,
    response_system_undamped pinv_identity expm_square_zero
      [[1; 0]; [0; 1]]%Q [[0; 0]; [0; 0]]%Q [1; 2]%Q [3; 4]%Q double_0_036
      = Ok (t, X) /\
    Z.of_nat (length t) = 9%Z /\
    has_shape (2 * 2) (length t) X /\
    (nth 0 t 0 == 0)%Q /\
    nth (length t - 1) t 0%Q = B2Q double_0_036 /\
    forall i, i + 1 < length t ->
      (nth (i + 1) t 0 - nth i t 0
         == B2Q double_0_036 / inject_Z (Z.of_nat (length t) - 1))%Q.
Proof.
  apply (response_sample_count pinv_identity expm_square_zero
           [[1; 0]; [0; 1]]%Q [[0; 0]; [0; 0]]%Q [[1; 0]; [0; 1]]%Q
           [1; 2]%Q [3; 4]%Q double_0_036 9 2).
  - reflexivity.
  - split; [reflexivity|repeat constructor].
  - reflexivity.
  - reflexivity.
  - reflexivity.
  - split; [reflexivity|repeat constructor].
  - intros t Ht. vm_compute in Ht. injection Ht as <-.
    eexists. split; [vm_compute; reflexivity|].
    split; [reflexivity|repeat constructor].
  - vm_compute. reflexivity.
  - lia.
Defined.

(** C3 (as stated).  The column count is not [round(250 * max_time)]: for
    the double [max_time = 0.015] the binary64 product is [3.75], the
    trajectory has [3] columns, and rounding gives [4]. *)
Lemma response_sample_count_not_rounded :
  (0 < B2Q double_0_015)%Q /\
  exists p t X,
    float_mul 250 (B2Q double_0_015) = Finite p /\
    (p == 15 # 4)%Q /\
    response_system_undamped pinv_identity expm_square_zero
      [[1; 0]; [0; 1]]%Q [[0; 0]; [0; 0]]%Q [1; 2]%Q [3; 4]%Q double_0_015
      = Ok (t, X) /\
    length t = 3 /\
    has_shape 4 3 X /\
    spec_round p = 4%Z /\
    Z.of_nat (ncols X) <> spec_round p.
Proof.
  split; [reflexivity|].
  eexists. eexists. eexists. split; [vm_compute; reflexivity|].
  split; [unfold Qeq; vm_compute; reflexivity|].
  split; [vm_compute; reflexivity|].
  split; [reflexivity|]. split; [split; [reflexivity|repeat constructor]|].
  split; [reflexivity|]. vm_compute. discriminate.
Qed.

(** The product is rounded before it is truncated: [250 * 0.036] is [9.0] in
    binary64, while the exact product of that double and [250] lies below
    [9]. *)
Lemma sample_count_rounded_product :
  sample_count double_0_036 = Ok 9%Z /\
  (250 * B2Q double_0_036 < 9)%Q /\
  int_of_Q (250 * B2Q double_0_036) = 8%Z.
Proof.
  split; [vm_compute; reflexivity|]. split; reflexivity.
Qed.

(** C6.  Whenever the call returns a trajectory, its first column is the
    stacked vector [[x0; v0]] and its column [k] is [Ad] applied [k] times to
    [[x0; v0]], for the one [Ad = expm(A * dt)] computed before the loop from
    [A = [[0, I], [-pinv(M) @ K, 0]]]; and it returns one exactly when the
    grid has two samples or more. *)
Theorem response_columns_iterate (la_pinv la_expm : matrix Q -> result (matrix Q))
  (M K Mp : matrix Q) (x0 v0 : list Q) (max_time : binary64) (n : nat) :
  length M = n ->
  has_shape n n K ->
  length x0 = n ->
  length v0 = n ->
  la_pinv M = Ok Mp ->
  has_shape n n Mp ->
  (forall num t,
     sample_count max_time = Ok num ->
     linspace 0 (B2Q max_time) num = Ok t ->
     exists Ad,
       la_expm (mscale (block2x2 (zeros n n) (eye n n)
                                 (mprod (mopp Mp) K) (zeros n n))
                       (nth 1 t 0 - nth 0 t 0)%Q) = Ok Ad /\
       has_shape (2 * n) (2 * n) Ad) ->
  ((exists num, sample_count max_time = Ok num /\ (2 <= num)%Z) <->
   exists t X,
     response_system_undamped la_pinv la_expm M K x0 v0 max_time = Ok (t, X)) /\
  forall t X,
    response_system_undamped la_pinv la_expm M K x0 v0 max_time = Ok (t, X) ->
    exists Ad,
      state_matrix la_pinv M K =
        Ok (block2x2 (zeros n n) (eye n n) (mprod (mopp Mp) K) (zeros n n)) /\
      la_expm (mscale (block2x2 (zeros n n) (eye n n)
                                (mprod (mopp Mp) K) (zeros n n))
                      (nth 1 t 0 - nth 0 t 0)%Q) = Ok Ad /\
      get_col X 0 = Ok (x0 ++ v0) /\
      forall k, k < length t ->
        get_col X k = Ok (apply_times Ad k (x0 ++ v0)).
Proof.
  intros HM HK Hx0 Hv0 Hpinv HMp Hexpm.
  assert (Hcases : (exists e, sample_count max_time = Raise e) \/
                   (exists num, sample_count max_time = Ok num)).
  { destruct (sample_count max_time) as [num|e]; [right|left]; eauto. }
  destruct Hcases as [[e Hraise]|[num Hnum]].
  { assert (Habort := response_overflow la_pinv la_expm M K x0 v0 max_time e
                        Hraise).
    split.
    - split; [intros (num & Hnum & _)|intros (t & X & Hret)]; congruence.
    - intros t X Hret. congruence. }
  assert (Hunfold := response_unfold la_pinv la_expm M K x0 v0 max_time num
                       Hnum).
  destruct (Z.lt_ge_cases num 2) as [Hfew|Hcount].
  - assert (Habort := response_aborts la_pinv la_expm M K x0 v0
                        (B2Q max_time) num Hfew).
    rewrite <- Hunfold in Habort.
    split.
    + split; [intros (num' & Hnum' & Hge)|intros (t & X & Hret)];
        [|congruence].
      assert (num' = num) by congruence. lia.
    + intros t X Hret. congruence.
  - destruct (response_run la_pinv la_expm M K Mp x0 v0 (B2Q max_time) num n
                HM HK Hx0 Hv0 Hpinv HMp (fun t => Hexpm num t Hnum) Hcount)
      as (t & X & Ad & Hrun & Ht & HAd & Hshape & Hcols).
    rewrite <- Hunfold in Hrun.
    destruct (linspace_grid (B2Q max_time) num Hcount)
      as (t' & Ht' & Hlen & _).
    assert (t' = t) by congruence. subst t'.
    split.
    + split; [intros _; now exists t, X|intros _; now exists num].
    + intros t1 X1 Hret.
      assert (t1 = t) by congruence. assert (X1 = X) by congruence.
      subst t1 X1. exists Ad.
      split; [apply (state_matrix_ok la_pinv M K Mp n HM HK Hpinv HMp)|].
      split; [exact HAd|].
      assert (Hget : forall k, k < length t ->
                get_col X k = Ok (apply_times Ad k (x0 ++ v0))).
      { intros k Hk.
        rewrite (get_col_ok X (2 * n) (length t) k Hshape Hk).
        now rewrite (Hcols k) by lia. }
      split; [|exact Hget].
      apply (Hget 0). lia.
Qed.

Lemma response_columns_iterate_witness :
  ((exists num, sample_count double_0_015 = Ok num /\ (2 <= num)%Z) <->
   exists t X,
     response_system_undamped pinv_identity expm_square_zero
       [[1; 0]; [0; 1]]%Q [[0; 0]; [0; 0]]%Q [1; 2]%Q [3; 4]%Q double_0_015
       = Ok (t, X)) /\
  forall t X,
    response_system_undamped pinv_identity expm_square_zero
      [[1; 0]; [0; 1]]%Q [[0; 0]; [0; 0]]%Q [1; 2]%Q [3; 4]%Q double_0_015
      = Ok (t, X) ->
    exists Ad,
      state_matrix pinv_identity [[1; 0]; [0; 1]]%Q [[0; 0]; [0; 0]]%Q
        = Ok (block2x2 (zeros 2 2) (eye 2 2)
                (mprod (mopp [[1; 0]; [0; 1]]%Q) [[0; 0]; [0; 0]]%Q)
                (zeros 2 2)) /\
      expm_square_zero
        (mscale (block2x2 (zeros 2 2) (eye 2 2)
                   (mprod (mopp [[1; 0]; [0; 1]]%Q) [[0; 0]; [0; 0]]%Q)
                   (zeros 2 2))
                (nth 1 t 0 - nth 0 t 0)%Q) = Ok Ad /\
      get_col X 0 = Ok ([1; 2] ++ [3; 4])%Q /\
      forall k, k < length t ->
        get_col X k = Ok (apply_times Ad k ([1; 2] ++ [3; 4])%Q).
Proof.
  apply (response_columns_iterate pinv_identity expm_square_zero
           [[1; 0]; [0; 1]]%Q [[0; 0]; [0; 0]]%Q [[1; 0]; [0; 1]]%Q
           [1; 2]%Q [3; 4]%Q double_0_015 2).
  - reflexivity.
  - split; [reflexivity|repeat constructor].
  - reflexivity.
  - reflexivity.
  - reflexivity.
  - split; [reflexivity|repeat constructor].
  - intros num t Hnum Ht. vm_compute in Hnum. injection Hnum as <-.
    vm_compute in Ht. injection Ht as <-.
    eexists. split; [vm_compute; reflexivity|].
    split; [reflexivity|repeat constructor].
Defined.

(** C10.  For every double [max_time] strictly between [0] and [0.008] the
    grid has fewer than two samples and the call aborts with an index error
    at [t[1]], whatever the other arguments. *)
Theorem response_short_horizon_aborts
  (la_pinv la_expm : matrix Q -> result (matrix Q))
  (M K : matrix Q) (x0 v0 : list Q) (max_time : binary64) :
  (0 < B2Q max_time)%Q ->
  (B2Q max_time < 8 # 1000)%Q ->
  (exists num,
     sample_count max_time = Ok num /\
     (num < 2)%Z /\
     exists t, linspace 0 (B2Q max_time) num = Ok t /\
               length t < 2 /\ getitem t 1 = Raise IndexError) /\
  response_system_undamped la_pinv la_expm M K x0 v0 max_time = Raise IndexError.
Proof.
  intros Hpos Hlt.
  destruct (sample_count_short max_time Hpos Hlt) as (num & Hnum & Hge & Hfew).
  split.
  - exists num. split; [exact Hnum|]. split; [exact Hfew|].
    destruct (linspace_short 0 (B2Q max_time) num) as (t & Ht & Hout); [lia|].
    exists t. split; [exact Ht|]. split; [|exact Hout].
    unfold getitem in Hout.
    destruct (nth_error t 1) eqn:E; [discriminate|].
    apply nth_error_None in E. lia.
  - rewrite (response_unfold la_pinv la_expm M K x0 v0 max_time num Hnum).
    rewrite (response_aborts la_pinv la_expm M K x0 v0 (B2Q max_time) num Hfew).
    now rewrite (proj2 (Z.ltb_ge num 0)) by lia.
Qed.

Lemma response_short_horizon_aborts_witness :
  (exists num,
     sample_count double_below_0_008 = Ok num /\
     (num < 2)%Z /\
     exists t, linspace 0 (B2Q double_below_0_008) num = Ok t /\
               length t < 2 /\ getitem t 1 = Raise IndexError) /\
  response_system_undamped pinv_identity expm_square_zero
    [[1; 0]; [0; 1]]%Q [[0; 0]; [0; 0]]%Q [1; 2]%Q [3; 4]%Q double_below_0_008
    = Raise IndexError.
Proof.
  apply (response_short_horizon_aborts pinv_identity expm_square_zero
           [[1; 0]; [0; 1]]%Q [[0; 0]; [0; 0]]%Q [1; 2]%Q [3; 4]%Q
           double_below_0_008).
  - reflexivity.
  - reflexivity.
Defined.

(** * Further properties *)

(** ** [eigen]: eigenvalues and columns stay paired *)

(** X13.  One index array, with entries below [n], is applied to the
    eigenvalues and to the eigenvector columns: output eigenvalue [k] and
    output column [k] are the raw eigenvalue [j] and the raw column [j] for
    the same [j], so a relation that holds between every raw eigenvalue and
    its column holds between every returned eigenvalue and its column, also
    where the index array repeats a position. *)
Theorem eigen_copermuted (F : Type)
  (la_eig : matrix F -> option (matrix F) -> result (list complex * matrix F))
  (argsort : list Q -> list nat) (A : matrix F) (B : option (matrix F))
  (n : nat) (evalues : list complex) (evectors : matrix F) :
  (forall keys, is_argsort keys (argsort keys)) ->
  la_eig A B = Ok (evalues, evectors) ->
  length evalues = n ->
  has_shape n n evectors ->
  exists idx vals vecs,
    eigen la_eig argsort A B = Ok (vals, vecs) /\
    take evalues idx = Ok vals /\
    take_cols evectors idx = Ok vecs /\
    (forall k, k < length vals ->
       exists j z v,
         j < n /\ nth_error idx k = Some j /\
         nth_error vals k = Some z /\ nth_error evalues j = Some z /\
         get_col vecs k = Ok v /\ get_col evectors j = Ok v) /\
    (forall R : complex -> list F -> Prop,
       (forall j z v, nth_error evalues j = Some z ->
                      get_col evectors j = Ok v -> R z v) ->
       forall k z v, nth_error vals k = Some z ->
                     get_col vecs k = Ok v -> R z v).
Proof.
  intros Hsort Hraw Hn [Hrows Hshape].
  destruct (eigen_sort_spec F argsort Hsort n evalues evectors Hn Hshape)
    as (vecs & Hrun & Hcols & Hall).
  assert (Hidx := eigen_index_range argsort Hsort evalues).
  set (idx := eigen_index argsort evalues) in *.
  assert (Hvals := take_ok evalues idx (mkC 0 0) Hidx).
  assert (Hpair : forall k, k < length idx ->
            exists j z v,
              j < n /\ nth_error idx k = Some j /\
              nth_error (map (fun i => nth i evalues (mkC 0 0)) idx) k = Some z /\
              nth_error evalues j = Some z /\
              get_col vecs k = Ok v /\ get_col evectors j = Ok v).
  { intros k Hk.
    destruct (nth_error idx k) as [j|] eqn:Ej;
      [|apply nth_error_None in Ej; lia].
    assert (Hj : j < n).
    { rewrite Forall_forall in Hidx. rewrite <- Hn.
      apply Hidx. eapply nth_error_In; eassumption. }
    destruct (get_col_total evectors j) as (v & Hv & _).
    { eapply Forall_impl; [|exact Hshape]. simpl. intros row ->. exact Hj. }
    exists j, (nth j evalues (mkC 0 0)), v.
    repeat split; try assumption.
    - rewrite nth_error_map, Ej. reflexivity.
    - apply nth_error_nth'. now rewrite Hn.
    - now rewrite (get_col_reindexed evectors vecs idx k j Hall Ej). }
  exists idx, (map (fun i => nth i evalues (mkC 0 0)) idx), vecs.
  rewrite (eigen_unfold F la_eig argsort A B _ _ Hraw).
  repeat split; try assumption.
  - intros k Hk. apply Hpair. now rewrite length_map in Hk.
  - intros R HR k z v Hz Hv.
    assert (Hk : k < length idx).
    { rewrite <- (length_map (fun i => nth i evalues (mkC 0 0))).
      apply nth_error_Some. congruence. }
    destruct (Hpair k Hk) as (j & z' & v' & _ & _ & Hz' & Hraw_z & Hv' & Hraw_v).
    assert (z' = z) by congruence. assert (v' = v) by congruence. subst.
    now apply (HR j).
Qed.

Lemma eigen_copermuted_witness :
  exists idx vals vecs,
    eigen (eig_answer_at [[1; 0; 0]; [0; 5; 0]; [0; 0; 3]]%Q
             ([real 1; real 5; real 3], eye 3 3))
          argsort_insertion [[1; 0; 0]; [0; 5; 0]; [0; 0; 3]]%Q None
      = Ok (vals, vecs) /\
    take [real 1; real 5; real 3] idx = Ok vals /\
    take_cols (eye 3 3 : matrix Q) idx = Ok vecs /\
    (forall k, k < length vals ->
       exists j z v,
         j < 3 /\ nth_error idx k = Some j /\
         nth_error vals k = Some z /\
         nth_error [real 1; real 5; real 3] j = Some z /\
         get_col vecs k = Ok v /\ get_col (eye 3 3 : matrix Q) j = Ok v) /\
    (forall R : complex -> list Q -> Prop,
       (forall j z v, nth_error [real 1; real 5; real 3] j = Some z ->
                      get_col (eye 3 3 : matrix Q) j = Ok v -> R z v) ->
       forall k z v, nth_error vals k = Some z ->
                     get_col vecs k = Ok v -> R z v).
Proof.
  apply (eigen_copermuted Q
           (eig_answer_at [[1; 0; 0]; [0; 5; 0]; [0; 0; 3]]%Q
              ([real 1; real 5; real 3], eye 3 3))
           argsort_insertion [[1; 0; 0]; [0; 5; 0]; [0; 0; 3]]%Q None 3).
  - exact argsort_insertion_ok.
  - reflexivity.
  - reflexivity.
  - split; [reflexivity|]. repeat constructor.
Defined.

(** ** [eigen]: what the split branches return *)

Lemma split_branch_key (evalues : list complex) :
  ~ Forall (fun z => (im z == 0)%Q /\ (0 < re z)%Q) evalues ->
  (all_imag_zero evalues = false /\ sort_key evalues = im) \/
  (all_imag_zero evalues = true /\ all_real_positive evalues = false /\
   sort_key evalues = re).
Proof.
  intros Hsplit. unfold sort_key.
  destruct (all_imag_zero evalues) eqn:Ei; [right|left; now split].
  split; [reflexivity|]. split; [|reflexivity].
  destruct (all_real_positive evalues) eqn:Er; [|reflexivity].
  exfalso. apply Hsplit.
  apply forallb_imag_zero in Ei. apply forallb_real_positive in Er.
  rewrite Forall_forall in *. intros z Hz. split; [now apply Ei|now apply Er].
Qed.

(** In a split branch with two eigenvalues or more, [eigen] returns the
    eigenvalues split by half of the ranking by [sort_key]. *)
Lemma eigen_split_values (F : Type)
  (la_eig : matrix F -> option (matrix F) -> result (list complex * matrix F))
  (argsort : list Q -> list nat) (A : matrix F) (B : option (matrix F))
  (n : nat) (evalues : list complex) (evectors : matrix F) :
  (forall keys, is_argsort keys (argsort keys)) ->
  la_eig A B = Ok (evalues, evectors) ->
  length evalues = n ->
  has_shape n n evectors ->
  2 <= n ->
  ~ Forall (fun z => (im z == 0)%Q /\ (0 < re z)%Q) evalues ->
  exists vecs,
    eigen la_eig argsort A B =
      Ok (spec_split_by_half (ranked argsort (sort_key evalues) evalues), vecs).
Proof.
  intros Hsort Hraw Hn Hshape Hge Hsplit.
  destruct (eigen_split_by_half F la_eig argsort A B n evalues evectors
              Hsort Hraw Hn Hshape Hge)
    as (vals & vecs & Hrun & _ & Him & Hre).
  exists vecs. rewrite Hrun.
  destruct (split_branch_key evalues Hsplit) as [[Ei ->]|(Ei & Er & ->)].
  - now rewrite (Him Ei).
  - now rewrite (Hre Ei Er).
Qed.

(** X1.  In a split branch with [n >= 2] eigenvalues the output is a block
    of [n - n/2] eigenvalues in ascending order of the sort key followed by a
    block of [n/2] eigenvalues in descending order, and no key of the second
    block exceeds a key of the first. *)
Theorem eigen_split_blocks (F : Type)
  (la_eig : matrix F -> option (matrix F) -> result (list complex * matrix F))
  (argsort : list Q -> list nat) (A : matrix F) (B : option (matrix F))
  (n : nat) (evalues : list complex) (evectors : matrix F) :
  (forall keys, is_argsort keys (argsort keys)) ->
  la_eig A B = Ok (evalues, evectors) ->
  length evalues = n ->
  has_shape n n evectors ->
  2 <= n ->
  ~ Forall (fun z => (im z == 0)%Q /\ (0 < re z)%Q) evalues ->
  exists upper lower vecs,
    eigen la_eig argsort A B = Ok (upper ++ lower, vecs) /\
    length upper = n - n / 2 /\
    length lower = n / 2 /\
    StronglySorted (fun a b => (sort_key evalues a <= sort_key evalues b)%Q) upper /\
    StronglySorted (fun a b => (sort_key evalues b <= sort_key evalues a)%Q) lower /\
    forall a b, In a lower -> In b upper ->
                (sort_key evalues a <= sort_key evalues b)%Q.
Proof.
  intros Hsort Hraw Hn Hshape Hge Hsplit.
  destruct (eigen_split_values F la_eig argsort A B n evalues evectors
              Hsort Hraw Hn Hshape Hge Hsplit) as (vecs & Hrun).
  set (key := sort_key evalues) in *.
  set (r := ranked argsort key evalues) in *.
  assert (Hlen : length r = n)
    by (unfold r; now rewrite (ranked_length argsort Hsort)).
  destruct (spec_split_blocks key r (ranked_sorted argsort Hsort key evalues))
    as (Hup & Hlow & Hcross & _).
  rewrite Hlen in Hup, Hlow, Hcross.
  assert (Hdm := Nat.div_mod_eq n 2).
  assert (Hm := Nat.mod_upper_bound n 2 ltac:(lia)).
  exists (skipn (n / 2) r), (rev (firstn (n / 2) r)), vecs.
  split; [rewrite Hrun; unfold spec_split_by_half; now rewrite Hlen|].
  split; [rewrite length_skipn; lia|].
  split; [rewrite length_rev, length_firstn; lia|].
  repeat split; assumption.
Qed.

Lemma eigen_split_blocks_witness :
  exists upper lower vecs,
    eigen (eig_answer_at [[0; 0; 0]; [0; 2; 0]; [0; 0; 1]]%Q
             ([real 0; real 2; real 1], eye 3 3))
          argsort_insertion [[0; 0; 0]; [0; 2; 0]; [0; 0; 1]]%Q None
      = Ok (upper ++ lower, vecs) /\
    length upper = 3 - 3 / 2 /\
    length lower = 3 / 2 /\
    StronglySorted
      (fun a b => (sort_key [real 0; real 2; real 1] a
                   <= sort_key [real 0; real 2; real 1] b)%Q) upper /\
    StronglySorted
      (fun a b => (sort_key [real 0; real 2; real 1] b
                   <= sort_key [real 0; real 2; real 1] a)%Q) lower /\
    forall a b, In a lower -> In b upper ->
                (sort_key [real 0; real 2; real 1] a
                 <= sort_key [real 0; real 2; real 1] b)%Q.
Proof.
  apply (eigen_split_blocks Q
           (eig_answer_at [[0; 0; 0]; [0; 2; 0]; [0; 0; 1]]%Q
              ([real 0; real 2; real 1], eye 3 3))
           argsort_insertion [[0; 0; 0]; [0; 2; 0]; [0; 0; 1]]%Q None 3
           [real 0; real 2; real 1] (eye 3 3)).
  - exact argsort_insertion_ok.
  - reflexivity.
  - reflexivity.
  - split; [reflexivity|]. repeat constructor.
  - lia.
  - intros Hall. inversion Hall as [|? ? [_ Hpos] _]. discriminate Hpos.
Defined.

(** The index array is a permutation of the positions, except for a single
    eigenvalue in a split branch. *)
Lemma eigen_index_perm (argsort : list Q -> list nat) (evalues : list complex) :
  (forall keys, is_argsort keys (argsort keys)) ->
  2 <= length evalues \/
    Forall (fun z => (im z == 0)%Q /\ (0 < re z)%Q) evalues ->
  Permutation (eigen_index argsort evalues) (seq 0 (length evalues)).
Proof.
  intros Hsort Hcase.
  assert (Hperm : forall key : complex -> Q,
             Permutation (argsort (map key evalues)) (seq 0 (length evalues))).
  { intros key. destruct (Hsort (map key evalues)) as [Hp _].
    now rewrite length_map in Hp. }
  assert (Hsplit : forall key : complex -> Q, 2 <= length evalues ->
             let '(idxp, idxn) :=
               split_index argsort (map key evalues) (half evalues) in
             Permutation (idxp ++ idxn) (seq 0 (length evalues))).
  { intros key Hge. rewrite half_nat.
    rewrite (split_index_halves argsort Hsort (map key evalues) (length evalues))
      by (try apply length_map; lia).
    rewrite Permutation_app_comm, <- Permutation_rev, firstn_skipn.
    apply Hperm. }
  unfold eigen_index, eigen_blocks.
  destruct (all_imag_zero evalues) eqn:Ei;
    [destruct (all_real_positive evalues) eqn:Er|].
  - rewrite app_nil_r. apply Hperm.
  - destruct Hcase as [Hge|Hall]; [now apply Hsplit|].
    exfalso.
    assert (Hpos : all_real_positive evalues = true).
    { apply forallb_real_positive. eapply Forall_impl; [|exact Hall].
      now intros z [_ Hz]. }
    congruence.
  - destruct Hcase as [Hge|Hall]; [now apply Hsplit|].
    exfalso.
    assert (Hzero : all_imag_zero evalues = true).
    { apply forallb_imag_zero. eapply Forall_impl; [|exact Hall].
      now intros z [Hz _]. }
    congruence.
Qed.

(** X2.  With two eigenvalues or more, and for any number of eigenvalues in
    the all-positive real branch, [eigen] applies a permutation of the
    positions: it returns [n] eigenvalues, a permutation of the raw ones, and
    an [n] by [n] eigenvector array. *)
Theorem eigen_preserves_decomposition (F : Type)
  (la_eig : matrix F -> option (matrix F) -> result (list complex * matrix F))
  (argsort : list Q -> list nat) (A : matrix F) (B : option (matrix F))
  (n : nat) (evalues : list complex) (evectors : matrix F) :
  (forall keys, is_argsort keys (argsort keys)) ->
  la_eig A B = Ok (evalues, evectors) ->
  length evalues = n ->
  has_shape n n evectors ->
  2 <= n \/ Forall (fun z => (im z == 0)%Q /\ (0 < re z)%Q) evalues ->
  exists idx vals vecs,
    eigen la_eig argsort A B = Ok (vals, vecs) /\
    Permutation idx (seq 0 n) /\
    take evalues idx = Ok vals /\
    take_cols evectors idx = Ok vecs /\
    Permutation vals evalues /\
    length vals = n /\
    has_shape n n vecs.
Proof.
  intros Hsort Hraw Hn [Hrows Hshape] Hcase.
  destruct (eigen_sort_spec F argsort Hsort n evalues evectors Hn Hshape)
    as (vecs & Hrun & Hcols & Hall).
  assert (Hperm : Permutation (eigen_index argsort evalues) (seq 0 n)).
  { rewrite <- Hn. apply eigen_index_perm; [exact Hsort|now rewrite Hn]. }
  assert (Hidx := eigen_index_range argsort Hsort evalues).
  set (idx := eigen_index argsort evalues) in *.
  assert (Hlen : length idx = n)
    by (rewrite (Permutation_length Hperm); apply length_seq).
  exists idx, (map (fun i => nth i evalues (mkC 0 0)) idx), vecs.
  rewrite (eigen_unfold F la_eig argsort A B _ _ Hraw).
  split; [exact Hrun|]. split; [exact Hperm|].
  split; [apply take_ok; exact Hidx|]. split; [exact Hcols|].
  split; [|split; [now rewrite length_map|]].
  - rewrite (Permutation_map (fun i => nth i evalues (mkC 0 0)) Hperm).
    rewrite <- Hn. now rewrite map_nth_seq_id.
  - split.
    + rewrite <- (Forall2_length Hall). exact Hrows.
    + clear - Hall Hlen. induction Hall as [|row row' V V' Hrow _ IH].
      * constructor.
      * constructor; [|exact IH].
        rewrite <- (Forall2_length Hrow). exact Hlen.
Qed.

Lemma eigen_preserves_decomposition_witness :
  exists idx vals vecs,
    eigen (eig_answer_at [[0; 0; 0]; [0; 2; 0]; [0; 0; 1]]%Q
             ([real 0; real 2; real 1], eye 3 3))
          argsort_insertion [[0; 0; 0]; [0; 2; 0]; [0; 0; 1]]%Q None
      = Ok (vals, vecs) /\
    Permutation idx (seq 0 3) /\
    take [real 0; real 2; real 1] idx = Ok vals /\
    take_cols (eye 3 3 : matrix Q) idx = Ok vecs /\
    Permutation vals [real 0; real 2; real 1] /\
    length vals = 3 /\
    has_shape 3 3 vecs.
Proof.
  apply (eigen_preserves_decomposition Q
           (eig_answer_at [[0; 0; 0]; [0; 2; 0]; [0; 0; 1]]%Q
              ([real 0; real 2; real 1], eye 3 3))
           argsort_insertion [[0; 0; 0]; [0; 2; 0]; [0; 0; 1]]%Q None 3).
  - exact argsort_insertion_ok.
  - reflexivity.
  - reflexivity.
  - split; [reflexivity|]. repeat constructor.
  - left. lia.
Defined.

Lemma StronglySorted_nth {A : Type} (R : A -> A -> Prop) (l : list A) (d : A) :
  StronglySorted R l ->
  forall i j, i < j < length l -> R (nth i l d) (nth j l d).
Proof.
  induction 1 as [|a l Hs IH Hall]; intros i j [Hij Hj]; simpl in Hj; [lia|].
  destruct j as [|j]; [lia|]. destruct i as [|i]; simpl.
  - rewrite Forall_forall in Hall. apply Hall. apply nth_In. lia.
  - apply IH. lia.
Qed.

Lemma StronglySorted_of_all {A : Type} (R : A -> A -> Prop) (l : list A) :
  (forall a b, In a l -> In b l -> R a b) -> StronglySorted R l.
Proof.
  induction l as [|x l IH]; intros Hall; constructor.
  - apply IH. intros a b Ha Hb. apply Hall; now right.
  - apply Forall_forall. intros b Hb. apply Hall; [now left|now right].
Qed.

(** X3.  In a split branch with [n >= 2] eigenvalues the eigenvalue with
    the smallest sort key is returned last, and the one with the largest
    sort key at position [n - n/2 - 1], the end of the first block; so the
    output is in ascending order of the sort key only when all sort keys are
    equal. *)
Theorem eigen_split_extremes (F : Type)
  (la_eig : matrix F -> option (matrix F) -> result (list complex * matrix F))
  (argsort : list Q -> list nat) (A : matrix F) (B : option (matrix F))
  (n : nat) (evalues : list complex) (evectors : matrix F) :
  (forall keys, is_argsort keys (argsort keys)) ->
  la_eig A B = Ok (evalues, evectors) ->
  length evalues = n ->
  has_shape n n evectors ->
  2 <= n ->
  ~ Forall (fun z => (im z == 0)%Q /\ (0 < re z)%Q) evalues ->
  exists vals vecs,
    eigen la_eig argsort A B = Ok (vals, vecs) /\
    length vals = n /\
    (forall z, In z evalues ->
       (sort_key evalues (nth (n - 1) vals (mkC 0 0)) <= sort_key evalues z)%Q) /\
    (forall z, In z evalues ->
       (sort_key evalues z
        <= sort_key evalues (nth (n - n / 2 - 1) vals (mkC 0 0)))%Q) /\
    (StronglySorted (fun a b => (sort_key evalues a <= sort_key evalues b)%Q)
                    vals <->
     forall a b, In a evalues -> In b evalues ->
                 (sort_key evalues a == sort_key evalues b)%Q).
Proof.
  intros Hsort Hraw Hn Hshape Hge Hsplit.
  destruct (eigen_split_values F la_eig argsort A B n evalues evectors
              Hsort Hraw Hn Hshape Hge Hsplit) as (vecs & Hrun).
  set (key := sort_key evalues) in *.
  set (r := ranked argsort key evalues) in *.
  assert (Hlen : length r = n)
    by (unfold r; now rewrite (ranked_length argsort Hsort)).
  assert (Hsorted := ranked_sorted argsort Hsort key evalues). fold r in Hsorted.
  assert (Hperm := ranked_perm argsort Hsort key evalues). fold r in Hperm.
  assert (Hdm := Nat.div_mod_eq n 2).
  assert (Hm := Nat.mod_upper_bound n 2 ltac:(lia)).
  assert (Hmono : forall i j, i <= j < n ->
            (key (nth i r (mkC 0 0)) <= key (nth j r (mkC 0 0)))%Q).
  { intros i j Hij. destruct (Nat.eq_dec i j) as [->|Hne].
    - apply Qle_refl.
    - apply (StronglySorted_nth (fun a b => (key a <= key b)%Q) r (mkC 0 0) Hsorted).
      lia. }
  assert (Hin : forall z, In z evalues -> exists i, i < n /\ nth i r (mkC 0 0) = z).
  { intros z Hz. apply (Permutation_in _ (Permutation_sym Hperm)) in Hz.
    destruct (In_nth r z (mkC 0 0) Hz) as (i & Hi & Hnth).
    exists i. split; [lia|exact Hnth]. }
  assert (Hlast : nth (n - 1) (spec_split_by_half r) (mkC 0 0) = nth 0 r (mkC 0 0)).
  { unfold spec_split_by_half. rewrite Hlen.
    rewrite app_nth2; rewrite length_skipn, Hlen; [|lia].
    rewrite rev_nth; rewrite length_firstn, Hlen; [|lia].
    rewrite nth_firstn.
    replace (Nat.min (n / 2) n - S (n - 1 - (n - n / 2))) with 0 by lia.
    destruct (Nat.ltb_spec 0 (n / 2)); [reflexivity|lia]. }
  assert (Hmax : nth (n - n / 2 - 1) (spec_split_by_half r) (mkC 0 0)
                 = nth (n - 1) r (mkC 0 0)).
  { unfold spec_split_by_half. rewrite Hlen.
    rewrite app_nth1 by (rewrite length_skipn, Hlen; lia).
    rewrite nth_skipn. f_equal. lia. }
  assert (Hlen' : length (spec_split_by_half r) = n).
  { unfold spec_split_by_half.
    rewrite length_app, length_skipn, length_rev, length_firstn, Hlen. lia. }
  assert (Hmin_le : forall z, In z evalues ->
            (key (nth (n - 1) (spec_split_by_half r) (mkC 0 0)) <= key z)%Q).
  { intros z Hz. destruct (Hin z Hz) as (i & Hi & <-).
    rewrite Hlast. apply Hmono. lia. }
  assert (Hmax_ge : forall z, In z evalues ->
            (key z <= key (nth (n - n / 2 - 1) (spec_split_by_half r) (mkC 0 0)))%Q).
  { intros z Hz. destruct (Hin z Hz) as (i & Hi & <-).
    rewrite Hmax. apply Hmono. lia. }
  exists (spec_split_by_half r), vecs.
  split; [exact Hrun|]. split; [exact Hlen'|].
  split; [exact Hmin_le|]. split; [exact Hmax_ge|].
  split.
  - intros Hasc a b Ha Hb.
    assert (Hcross := StronglySorted_nth (fun a b => (key a <= key b)%Q)
                        (spec_split_by_half r) (mkC 0 0) Hasc
                        (n - n / 2 - 1) (n - 1) ltac:(lia)).
    cbv beta in Hcross.
    assert (Ha1 := Hmin_le a Ha). assert (Ha2 := Hmax_ge a Ha).
    assert (Hb1 := Hmin_le b Hb). assert (Hb2 := Hmax_ge b Hb).
    apply Qle_antisym.
    + apply (Qle_trans _ _ _ Ha2). apply (Qle_trans _ _ _ Hcross). exact Hb1.
    + apply (Qle_trans _ _ _ Hb2). apply (Qle_trans _ _ _ Hcross). exact Ha1.
  - intros Heq. apply StronglySorted_of_all. intros a b Ha Hb.
    assert (Hsplit_perm : Permutation (spec_split_by_half r) evalues).
    { apply (Permutation_trans
               (proj2 (proj2 (proj2 (spec_split_blocks key r Hsorted))))).
      exact Hperm. }
    apply (Permutation_in _ Hsplit_perm) in Ha.
    apply (Permutation_in _ Hsplit_perm) in Hb.
    rewrite (Heq a b Ha Hb). apply Qle_refl.
Qed.

Lemma eigen_split_extremes_witness :
  exists vals vecs,
    eigen (eig_answer_at [[0; 0; 0]; [0; 2; 0]; [0; 0; 1]]%Q
             ([real 0; real 2; real 1], eye 3 3))
          argsort_insertion [[0; 0; 0]; [0; 2; 0]; [0; 0; 1]]%Q None
      = Ok (vals, vecs) /\
    length vals = 3 /\
    (forall z, In z [real 0; real 2; real 1] ->
       (sort_key [real 0; real 2; real 1] (nth (3 - 1) vals (mkC 0 0))
        <= sort_key [real 0; real 2; real 1] z)%Q) /\
    (forall z, In z [real 0; real 2; real 1] ->
       (sort_key [real 0; real 2; real 1] z
        <= sort_key [real 0; real 2; real 1]
             (nth (3 - 3 / 2 - 1) vals (mkC 0 0)))%Q) /\
    (StronglySorted
       (fun a b => (sort_key [real 0; real 2; real 1] a
                    <= sort_key [real 0; real 2; real 1] b)%Q) vals <->
     forall a b, In a [real 0; real 2; real 1] ->
                 In b [real 0; real 2; real 1] ->
                 (sort_key [real 0; real 2; real 1] a
                  == sort_key [real 0; real 2; real 1] b)%Q).
Proof.
  apply (eigen_split_extremes Q
           (eig_answer_at [[0; 0; 0]; [0; 2; 0]; [0; 0; 1]]%Q
              ([real 0; real 2; real 1], eye 3 3))
           argsort_insertion [[0; 0; 0]; [0; 2; 0]; [0; 0; 1]]%Q None 3
           [real 0; real 2; real 1] (eye 3 3)).
  - exact argsort_insertion_ok.
  - reflexivity.
  - reflexivity.
  - split; [reflexivity|]. repeat constructor.
  - lia.
  - intros Hall. inversion Hall as [|? ? [_ Hpos] _]. discriminate Hpos.
Defined.

(** ** Sorted key sequences are unique *)

Lemma count_below_perm (v : Q) (l l' : list Q) :
  Permutation l l' -> count_below v l = count_below v l'.
Proof.
  unfold count_below. induction 1 as [|x l l' _ IH|x y l|l l' l'' _ IH1 _ IH2];
    simpl.
  - reflexivity.
  - destruct (Qlt_bool x v); simpl; now rewrite IH.
  - destruct (Qlt_bool x v), (Qlt_bool y v); reflexivity.
  - now rewrite IH1.
Qed.

Lemma count_below_none (v : Q) (l : list Q) :
  Forall (fun x => (v <= x)%Q) l -> count_below v l = 0.
Proof.
  unfold count_below. induction 1 as [|x l Hx _ IH]; simpl.
  - reflexivity.
  - destruct (Qlt_bool x v) eqn:E; [|exact IH].
    apply Qlt_bool_iff in E. exfalso. exact (Qlt_not_le _ _ E Hx).
Qed.

Lemma count_below_cons_le (v x : Q) (l : list Q) :
  count_below v (x :: l) <= S (count_below v l).
Proof.
  unfold count_below. simpl. destruct (Qlt_bool x v); simpl; lia.
Qed.

Lemma sorted_count_le (v : Q) (s : list Q) :
  StronglySorted Qle s ->
  forall i, i < length s -> (v <= nth i s 0)%Q -> count_below v s <= i.
Proof.
  induction 1 as [|a s Hs IH Hall]; intros i Hi Hv; simpl in Hi; [lia|].
  destruct i as [|i]; simpl in Hv.
  - rewrite count_below_none; [lia|].
    constructor; [exact Hv|].
    eapply Forall_impl; [|exact Hall]. intros x Hx. simpl in Hx.
    exact (Qle_trans _ _ _ Hv Hx).
  - assert (Hrec := IH i ltac:(lia) Hv).
    assert (Hcons := count_below_cons_le v a s). lia.
Qed.

Lemma sorted_count_gt (v : Q) (s : list Q) :
  StronglySorted Qle s ->
  forall i, i < length s -> (nth i s 0 < v)%Q -> i < count_below v s.
Proof.
  induction 1 as [|a s Hs IH Hall]; intros i Hi Hv; simpl in Hi; [lia|].
  assert (Ha : Qlt_bool a v = true).
  { apply Qlt_bool_iff. destruct i as [|i]; simpl in Hv; [exact Hv|].
    rewrite Forall_forall in Hall.
    apply (Qle_lt_trans _ (nth i s 0%Q)); [|exact Hv].
    apply Hall. apply nth_In. lia. }
  unfold count_below in *. simpl. rewrite Ha. simpl.
  destruct i as [|i]; [lia|].
  simpl in Hv. assert (Hrec := IH i ltac:(lia) Hv). lia.
Qed.

(** Two ascending arrangements of the same keys agree position by
    position. *)
Lemma sorted_perm_nth (s1 s2 : list Q) (i : nat) :
  StronglySorted Qle s1 -> StronglySorted Qle s2 -> Permutation s1 s2 ->
  i < length s1 -> (nth i s1 0 == nth i s2 0)%Q.
Proof.
  intros H1 H2 Hperm Hi.
  assert (Hlen := Permutation_length Hperm).
  assert (Hle : forall a b : list Q,
             StronglySorted Qle a -> StronglySorted Qle b -> Permutation a b ->
             i < length a -> (nth i a 0 <= nth i b 0)%Q).
  { intros a b Ha Hb Hab Hia.
    destruct (Qlt_le_dec (nth i b 0%Q) (nth i a 0%Q)) as [Hlt|Hge]; [|exact Hge].
    exfalso.
    assert (Hib : i < length b) by (rewrite <- (Permutation_length Hab); exact Hia).
    assert (Hup := sorted_count_le (nth i a 0%Q) a Ha i Hia (Qle_refl _)).
    assert (Hlow := sorted_count_gt (nth i a 0%Q) b Hb i Hib Hlt).
    rewrite (count_below_perm _ a b Hab) in Hup. lia. }
  apply Qle_antisym.
  - now apply Hle.
  - apply Hle; try assumption; [now apply Permutation_sym|lia].
Qed.

Lemma Forall2_of_nth {A B : Type} (R : A -> B -> Prop) (da : A) (db : B)
  (l : list A) (l' : list B) :
  length l = length l' ->
  (forall i, i < length l -> R (nth i l da) (nth i l' db)) ->
  Forall2 R l l'.
Proof.
  revert l'. induction l as [|a l IH]; intros [|b l'] Hlen Hnth;
    try discriminate; constructor.
  - apply (Hnth 0). simpl. lia.
  - apply IH; [simpl in Hlen; lia|].
    intros i Hi. apply (Hnth (S i)). simpl. lia.
Qed.

Lemma sorted_perm_Forall2 (s1 s2 : list Q) :
  StronglySorted Qle s1 -> StronglySorted Qle s2 -> Permutation s1 s2 ->
  Forall2 Qeq s1 s2.
Proof.
  intros H1 H2 Hperm.
  apply (Forall2_of_nth Qeq 0%Q 0%Q); [now apply Permutation_length|].
  intros i Hi. now apply sorted_perm_nth.
Qed.

Lemma Forall2_firstn {A B : Type} (R : A -> B -> Prop) (k : nat)
  (l : list A) (l' : list B) :
  Forall2 R l l' -> Forall2 R (firstn k l) (firstn k l').
Proof.
  intros H. revert k. induction H as [|a b l l' Hab _ IH]; intros [|k]; simpl;
    constructor; [exact Hab|apply IH].
Qed.

Lemma Forall2_skipn {A B : Type} (R : A -> B -> Prop) (k : nat)
  (l : list A) (l' : list B) :
  Forall2 R l l' -> Forall2 R (skipn k l) (skipn k l').
Proof.
  intros H. revert k. induction H as [|a b l l' Hab H' IH]; intros [|k]; simpl;
    try constructor; try assumption. apply IH.
Qed.

Lemma Forall2_rev {A B : Type} (R : A -> B -> Prop) (l : list A) (l' : list B) :
  Forall2 R l l' -> Forall2 R (rev l) (rev l').
Proof.
  induction 1 as [|a b l l' Hab _ IH]; simpl.
  - constructor.
  - apply Forall2_app; [exact IH|now constructor].
Qed.

Lemma Forall2_map_both {A B C D : Type} (R : C -> D -> Prop) (f : A -> C)
  (g : B -> D) (l : list A) (l' : list B) :
  Forall2 R (map f l) (map g l') <-> Forall2 (fun a b => R (f a) (g b)) l l'.
Proof.
  split.
  - revert l'. induction l as [|a l IH]; intros [|b l'] H; simpl in H;
      inversion H; subst; constructor; [assumption|now apply IH].
  - induction 1; simpl; constructor; assumption.
Qed.

Lemma slice_from_Forall2 {A B : Type} (R : A -> B -> Prop) (h : Z)
  (l : list A) (l' : list B) :
  Forall2 R l l' -> Forall2 R (slice_from l h) (slice_from l' h).
Proof.
  intros H. unfold slice_from. rewrite <- (Forall2_length H).
  now apply Forall2_skipn.
Qed.

Lemma slice_down_from_Forall2 {A B : Type} (R : A -> B -> Prop) (h : Z)
  (l : list A) (l' : list B) :
  Forall2 R l l' -> Forall2 R (slice_down_from l h) (slice_down_from l' h).
Proof.
  intros H. unfold slice_down_from. rewrite <- (Forall2_length H). cbv zeta.
  destruct (_ <? 0)%Z; [constructor|].
  now apply Forall2_rev, Forall2_firstn.
Qed.

Lemma slice_from_map {A B : Type} (f : A -> B) (h : Z) (l : list A) :
  map f (slice_from l h) = slice_from (map f l) h.
Proof.
  unfold slice_from. now rewrite length_map, skipn_map.
Qed.

Lemma slice_down_from_map {A B : Type} (f : A -> B) (h : Z) (l : list A) :
  map f (slice_down_from l h) = slice_down_from (map f l) h.
Proof.
  unfold slice_down_from. rewrite length_map. cbv zeta.
  destruct (_ <? 0)%Z; [reflexivity|].
  now rewrite map_rev, firstn_map.
Qed.

Lemma forallb_perm {A : Type} (f : A -> bool) (l l' : list A) :
  Permutation l l' -> forallb f l = forallb f l'.
Proof.
  induction 1 as [|x l l' _ IH|x y l|l l' l'' _ IH1 _ IH2]; simpl.
  - reflexivity.
  - now rewrite IH.
  - destruct (f x), (f y); reflexivity.
  - now rewrite IH1.
Qed.

(** ** [eigen]: the order of the sort keys is canonical *)

Lemma ranked_keys_sorted (argsort : list Q -> list nat) (key : complex -> Q)
  (evalues : list complex) :
  (forall keys, is_argsort keys (argsort keys)) ->
  StronglySorted Qle (map key (ranked argsort key evalues)).
Proof.
  intros Hsort. apply StronglySorted_map_iff.
  apply (ranked_sorted argsort Hsort key evalues).
Qed.

(** The sort keys of the output, read off the ascending key sequence. *)
Lemma eigen_output_keys (argsort : list Q -> list nat) (evalues : list complex) :
  map (sort_key evalues)
      (map (fun i => nth i evalues (mkC 0 0)) (eigen_index argsort evalues)) =
    let ks := map (sort_key evalues) (ranked argsort (sort_key evalues) evalues) in
    if all_imag_zero evalues && all_real_positive evalues then ks
    else slice_from ks (half evalues) ++ slice_down_from ks (half evalues - 1).
Proof.
  unfold eigen_index, eigen_blocks, sort_key, ranked, split_index. cbv zeta.
  destruct (all_imag_zero evalues); [destruct (all_real_positive evalues)|];
    simpl andb; cbv iota.
  - now rewrite app_nil_r.
  - now rewrite !map_app, !slice_from_map, !slice_down_from_map.
  - now rewrite !map_app, !slice_from_map, !slice_down_from_map.
Qed.

(** X4.  The sequence of sort keys that [eigen] returns depends neither on
    the order in which the eigensolver lists the eigenvalues nor on how
    [argsort] orders equal keys: two raw decompositions with the same
    eigenvalues in any order give outputs whose sort keys agree position by
    position. *)
Theorem eigen_order_canonical (F : Type)
  (la_eig1 la_eig2 : matrix F -> option (matrix F) ->
                     result (list complex * matrix F))
  (argsort1 argsort2 : list Q -> list nat)
  (A : matrix F) (B : option (matrix F)) (n : nat)
  (evalues1 evalues2 : list complex) (evectors1 evectors2 : matrix F) :
  (forall keys, is_argsort keys (argsort1 keys)) ->
  (forall keys, is_argsort keys (argsort2 keys)) ->
  la_eig1 A B = Ok (evalues1, evectors1) ->
  la_eig2 A B = Ok (evalues2, evectors2) ->
  Permutation evalues1 evalues2 ->
  length evalues1 = n ->
  has_shape n n evectors1 ->
  has_shape n n evectors2 ->
  exists vals1 vecs1 vals2 vecs2,
    eigen la_eig1 argsort1 A B = Ok (vals1, vecs1) /\
    eigen la_eig2 argsort2 A B = Ok (vals2, vecs2) /\
    sort_key evalues2 = sort_key evalues1 /\
    Forall2 (fun z1 z2 => (sort_key evalues1 z1 == sort_key evalues1 z2)%Q)
            vals1 vals2.
Proof.
  intros Hsort1 Hsort2 Hraw1 Hraw2 Hperm Hn1 [_ Hshape1] [_ Hshape2].
  assert (Hn2 : length evalues2 = n)
    by (rewrite <- (Permutation_length Hperm); exact Hn1).
  destruct (eigen_sort_spec F argsort1 Hsort1 n evalues1 evectors1 Hn1 Hshape1)
    as (vecs1 & Hrun1 & _).
  destruct (eigen_sort_spec F argsort2 Hsort2 n evalues2 evectors2 Hn2 Hshape2)
    as (vecs2 & Hrun2 & _).
  assert (Hzero : all_imag_zero evalues2 = all_imag_zero evalues1)
    by (symmetry; now apply forallb_perm).
  assert (Hpos : all_real_positive evalues2 = all_real_positive evalues1)
    by (symmetry; now apply forallb_perm).
  assert (Hkey : sort_key evalues2 = sort_key evalues1)
    by (unfold sort_key; now rewrite Hzero).
  assert (Hhalf : half evalues2 = half evalues1)
    by (unfold half; now rewrite Hn1, Hn2).
  exists (map (fun i => nth i evalues1 (mkC 0 0)) (eigen_index argsort1 evalues1)),
    vecs1,
    (map (fun i => nth i evalues2 (mkC 0 0)) (eigen_index argsort2 evalues2)),
    vecs2.
  rewrite (eigen_unfold F la_eig1 argsort1 A B _ _ Hraw1).
  rewrite (eigen_unfold F la_eig2 argsort2 A B _ _ Hraw2).
  split; [exact Hrun1|]. split; [exact Hrun2|]. split; [exact Hkey|].
  apply (proj1 (Forall2_map_both Qeq (sort_key evalues1) (sort_key evalues1) _ _)).
  assert (Hout2 := eigen_output_keys argsort2 evalues2).
  rewrite Hzero, Hpos, Hhalf, Hkey in Hout2.
  rewrite (eigen_output_keys argsort1 evalues1), Hout2. cbv zeta.
  set (key := sort_key evalues1).
  assert (Hks : Forall2 Qeq (map key (ranked argsort1 key evalues1))
                            (map key (ranked argsort2 key evalues2))).
  { apply sorted_perm_Forall2; try now apply ranked_keys_sorted.
    apply Permutation_map.
    rewrite (ranked_perm argsort1 Hsort1 key evalues1).
    rewrite (ranked_perm argsort2 Hsort2 key evalues2).
    exact Hperm. }
  destruct (all_imag_zero evalues1 && all_real_positive evalues1).
  - exact Hks.
  - apply Forall2_app;
      [now apply slice_from_Forall2|now apply slice_down_from_Forall2].
Qed.

Lemma eigen_order_canonical_witness :
  exists vals1 vecs1 vals2 vecs2,
    eigen (eig_answer_at [[0; 0; 0]; [0; 2; 0]; [0; 0; 2]]%Q
             ([real 0; real 2; real 2], eye 3 3))
          argsort_insertion [[0; 0; 0]; [0; 2; 0]; [0; 0; 2]]%Q None
      = Ok (vals1, vecs1) /\
    eigen (eig_answer_at [[0; 0; 0]; [0; 2; 0]; [0; 0; 2]]%Q
             ([real 2; real 0; real 2], [[0; 1; 0]; [1; 0; 0]; [0; 0; 1]]%Q))
          argsort_insertion [[0; 0; 0]; [0; 2; 0]; [0; 0; 2]]%Q None
      = Ok (vals2, vecs2) /\
    sort_key [real 2; real 0; real 2] = sort_key [real 0; real 2; real 2] /\
    Forall2 (fun z1 z2 => (sort_key [real 0; real 2; real 2] z1
                           == sort_key [real 0; real 2; real 2] z2)%Q)
            vals1 vals2.
Proof.
  apply (eigen_order_canonical Q
           (eig_answer_at [[0; 0; 0]; [0; 2; 0]; [0; 0; 2]]%Q
              ([real 0; real 2; real 2], eye 3 3))
           (eig_answer_at [[0; 0; 0]; [0; 2; 0]; [0; 0; 2]]%Q
              ([real 2; real 0; real 2], [[0; 1; 0]; [1; 0; 0]; [0; 0; 1]]%Q))
           argsort_insertion argsort_insertion
           [[0; 0; 0]; [0; 2; 0]; [0; 0; 2]]%Q None 3
           [real 0; real 2; real 2] [real 2; real 0; real 2]
           (eye 3 3) [[0; 1; 0]; [1; 0; 0]; [0; 0; 1]]%Q).
  - exact argsort_insertion_ok.
  - exact argsort_insertion_ok.
  - reflexivity.
  - reflexivity.
  - apply perm_swap.
  - reflexivity.
  - split; [reflexivity|]. repeat constructor.
  - split; [reflexivity|]. repeat constructor.
Defined.

(** ** [eigen]: conjugate pairs *)

Lemma StronglySorted_impl {A : Type} (R R' : A -> A -> Prop) (l : list A) :
  (forall a b, R a b -> R' a b) -> StronglySorted R l -> StronglySorted R' l.
Proof.
  intros Himpl. induction 1 as [|a l _ IH Hall]; constructor.
  - exact IH.
  - eapply Forall_impl; [|exact Hall]. intros b. apply Himpl.
Qed.

Lemma Forall2_Forall_l {A B : Type} (R : A -> B -> Prop) (P : A -> Prop)
  (l : list A) (l' : list B) :
  Forall2 R l l' ->
  (forall a b, In a l -> In b l' -> R a b -> P a) ->
  Forall P l.
Proof.
  induction 1 as [|a b l l' Hab _ IH]; intros HP; constructor.
  - apply (HP a b); [now left|now left|exact Hab].
  - apply IH. intros a' b' Ha' Hb'. apply HP; now right.
Qed.

Lemma Qopp_le_self (x : Q) : (- x <= x)%Q -> (0 <= x)%Q.
Proof.
  intros Hle. destruct (Qlt_le_dec x 0) as [Hneg|Hpos]; [|exact Hpos].
  exfalso. assert (Hopp : (- 0 < - x)%Q) by now apply Qopp_lt_compat.
  apply (Qlt_irrefl x).
  apply (Qlt_trans _ 0); [exact Hneg|].
  apply (Qlt_le_trans _ (- x)); [exact Hopp|exact Hle].
Qed.

Lemma firstn_app_exact {A : Type} (m : nat) (l1 l2 : list A) :
  length l1 = m -> firstn m (l1 ++ l2) = l1.
Proof.
  intros <-. induction l1 as [|a l1 IH]; simpl.
  - reflexivity.
  - now rewrite IH.
Qed.

Lemma skipn_app_exact {A : Type} (m : nat) (l1 l2 : list A) :
  length l1 = m -> skipn m (l1 ++ l2) = l2.
Proof.
  intros <-. induction l1 as [|a l1 IH]; simpl; [reflexivity|exact IH].
Qed.

Lemma Forall2_swap {A B : Type} (R : A -> B -> Prop) (l : list A) (l' : list B) :
  Forall2 R l l' -> Forall2 (fun b a => R a b) l' l.
Proof. induction 1; constructor; assumption. Qed.

(** A key sequence that is closed under negation reads the same backwards
    with the signs changed. *)
Lemma sorted_keys_mirror (ks : list Q) :
  StronglySorted Qle ks -> Permutation (map Qopp ks) ks ->
  Forall2 Qeq ks (rev (map Qopp ks)).
Proof.
  intros Hs Hperm. apply sorted_perm_Forall2.
  - exact Hs.
  - apply (StronglySorted_rev (fun a b => (b <= a)%Q)).
    apply (proj2 (StronglySorted_map_iff (fun a b => (b <= a)%Q) Qopp ks)).
    apply (StronglySorted_impl Qle); [|exact Hs].
    intros a b Hab. now apply Qopp_le_compat.
  - rewrite <- Permutation_rev. now apply Permutation_sym.
Qed.

(** X5.  When the raw eigenvalues come in conjugate pairs and some
    imaginary part is not zero, the first half of the output has the
    non-negative imaginary parts and the second half mirrors it: the
    eigenvalue at position [m + i] has the opposite imaginary part of the
    one at position [i]. *)
Theorem eigen_conjugate_pairs (F : Type)
  (la_eig : matrix F -> option (matrix F) -> result (list complex * matrix F))
  (argsort : list Q -> list nat) (A : matrix F) (B : option (matrix F))
  (m : nat) (evalues : list complex) (evectors : matrix F) :
  (forall keys, is_argsort keys (argsort keys)) ->
  la_eig A B = Ok (evalues, evectors) ->
  length evalues = 2 * m ->
  has_shape (2 * m) (2 * m) evectors ->
  Permutation (map conjugate evalues) evalues ->
  (exists z, In z evalues /\ ~ (im z == 0)%Q) ->
  exists vals vecs,
    eigen la_eig argsort A B = Ok (vals, vecs) /\
    length vals = 2 * m /\
    Forall (fun z => (0 <= im z)%Q) (firstn m vals) /\
    Forall2 (fun a b => (im b == - im a)%Q) (firstn m vals) (skipn m vals).
Proof.
  intros Hsort Hraw Hn Hshape Hconj (z0 & Hz0 & Hnz).
  assert (Hm : 1 <= m) by (destruct evalues; [destruct Hz0|simpl in Hn; lia]).
  assert (Hnot : ~ Forall (fun z => (im z == 0)%Q /\ (0 < re z)%Q) evalues).
  { intros Hall. rewrite Forall_forall in Hall. now apply Hnz, Hall. }
  assert (Hkey : sort_key evalues = im).
  { destruct (split_branch_key evalues Hnot) as [[_ Hk]|(Hzero & _)];
      [exact Hk|].
    exfalso. apply forallb_imag_zero in Hzero.
    rewrite Forall_forall in Hzero. now apply Hnz, Hzero. }
  destruct (eigen_split_values F la_eig argsort A B (2 * m) evalues evectors
              Hsort Hraw Hn Hshape ltac:(lia) Hnot) as (vecs & Hrun).
  rewrite Hkey in Hrun.
  set (r := ranked argsort im evalues) in *.
  assert (Hlen : length r = 2 * m)
    by (unfold r; now rewrite (ranked_length argsort Hsort)).
  assert (Hhalf : length r / 2 = m)
    by (rewrite Hlen, Nat.mul_comm; now apply Nat.div_mul).
  assert (Hperm := ranked_perm argsort Hsort im evalues). fold r in Hperm.
  assert (Hsorted := ranked_keys_sorted argsort im evalues Hsort). fold r in Hsorted.
  destruct (spec_split_blocks im r (ranked_sorted argsort Hsort im evalues))
    as (_ & _ & Hcross & _).
  fold r in Hcross. rewrite Hhalf in Hcross.
  assert (Hmirror : Forall2 Qeq (map im r) (rev (map Qopp (map im r)))).
  { apply sorted_keys_mirror; [exact Hsorted|].
    rewrite map_map.
    change (fun x => (- im x)%Q) with (fun x => im (conjugate x)).
    rewrite <- (map_map conjugate im).
    apply Permutation_map.
    rewrite (Permutation_map conjugate Hperm), Hconj. now apply Permutation_sym. }
  assert (Hpairs : Forall2 (fun a b => (im b == - im a)%Q)
                     (skipn m r) (rev (firstn m r))).
  { apply (Forall2_firstn Qeq m) in Hmirror.
    rewrite firstn_rev, !length_map, Hlen in Hmirror.
    replace (2 * m - m) with m in Hmirror by lia.
    apply Forall2_rev in Hmirror. rewrite rev_involutive in Hmirror.
    rewrite firstn_map, <- map_rev, !skipn_map, map_map in Hmirror.
    apply (proj1 (Forall2_map_both Qeq im (fun a => (- im a)%Q) _ _)) in Hmirror.
    now apply Forall2_swap. }
  assert (Hup_len : length (skipn m r) = m) by (rewrite length_skipn; lia).
  exists (spec_split_by_half r), vecs.
  split; [exact Hrun|].
  unfold spec_split_by_half. rewrite Hhalf.
  split; [rewrite length_app, length_rev, length_firstn, Hup_len; lia|].
  rewrite (firstn_app_exact _ _ _ Hup_len), (skipn_app_exact _ _ _ Hup_len).
  split; [|exact Hpairs].
  apply (Forall2_Forall_l _ _ _ _ Hpairs).
  intros a b Ha Hb Hab. apply Qopp_le_self.
  rewrite <- Hab. now apply Hcross.
Qed.

Lemma eigen_conjugate_pairs_witness :
  let A := [[mkC 0 0; mkC (-3) 0]; [mkC (16 # 3) 0; mkC 0 0]] in
  let V := [[mkC (3 # 5) 0; mkC (3 # 5) 0];
            [mkC 0 (-4 # 5); mkC 0 (4 # 5)]] in
  exists vals vecs,
    eigen (fun _ _ => Ok ([mkC 0 4; mkC 0 (-4)], V)) argsort_insertion A None
      = Ok (vals, vecs) /\
    length vals = 2 * 1 /\
    Forall (fun z => (0 <= im z)%Q) (firstn 1 vals) /\
    Forall2 (fun a b => (im b == - im a)%Q) (firstn 1 vals) (skipn 1 vals).
Proof.
  cbv zeta.
  apply (eigen_conjugate_pairs complex
           (fun _ _ => Ok ([mkC 0 4; mkC 0 (-4)],
                           [[mkC (3 # 5) 0; mkC (3 # 5) 0];
                            [mkC 0 (-4 # 5); mkC 0 (4 # 5)]]))
           argsort_insertion
           [[mkC 0 0; mkC (-3) 0]; [mkC (16 # 3) 0; mkC 0 0]] None 1
           [mkC 0 4; mkC 0 (-4)]
           [[mkC (3 # 5) 0; mkC (3 # 5) 0]; [mkC 0 (-4 # 5); mkC 0 (4 # 5)]]).
  - exact argsort_insertion_ok.
  - reflexivity.
  - reflexivity.
  - split; [reflexivity|]. repeat constructor.
  - apply perm_swap.
  - exists (mkC 0 4). split; [now left|]. intros H. discriminate H.
Defined.

(** ** [modes_system_undamped]: shapes *)

Section ShapeFacts.

Context {F : Type} {SF : Scalar F}.

Lemma ncols_shape (r c : nat) (A : matrix F) :
  has_shape r c A -> 1 <= r -> ncols A = c.
Proof.
  intros [Hr Hrows] Hpos. destruct A as [|row A]; simpl in *; [lia|].
  now inversion Hrows.
Qed.

Lemma transpose_shape (r c : nat) (A : matrix F) :
  has_shape r c A -> 1 <= r -> has_shape c r (transpose A).
Proof.
  intros Hshape Hpos. unfold transpose.
  rewrite (ncols_shape r c A Hshape Hpos). split.
  - now rewrite length_map, length_seq.
  - apply Forall_forall. intros col Hcol.
    apply in_map_iff in Hcol. destruct Hcol as (j & <- & _).
    rewrite column_length. apply Hshape.
Qed.

(** [A @ B] of an [r] by [c] and a [c] by [k] array is returned and is
    [r] by [k]. *)
Lemma matmul_shape (r c k : nat) (A B : matrix F) :
  has_shape r c A -> has_shape c k B -> 1 <= c ->
  exists AB, matmul A B = Ok AB /\ has_shape r k AB.
Proof.
  intros HA HB Hc. eexists. split.
  - apply (matmul_ok A B r c HA). apply HB.
  - split.
    + rewrite length_map. apply HA.
    + apply Forall_forall. intros row Hrow.
      apply in_map_iff in Hrow. destruct Hrow as (row0 & <- & _).
      rewrite length_map. apply (transpose_shape c k B HB Hc).
Qed.

(** [A @ B] raises when a row of [A] is not as long as [B] has rows. *)
Lemma matmul_mismatch (r c : nat) (A B : matrix F) :
  has_shape r c A -> 1 <= r -> length B <> c ->
  matmul A B = Raise ValueError.
Proof.
  intros [Hr Hrows] Hpos Hne. unfold matmul.
  destruct A as [|row A]; simpl in *; [lia|].
  inversion Hrows as [|? ? Hrow _]; subst.
  now rewrite (proj2 (Nat.eqb_neq _ _)) by congruence.
Qed.

(** The columns selected by an index array of length [n] form an array
    with rows of length [n]. *)
Lemma reindexed_shape (V vecs : matrix F) (idx : list nat) (r n : nat) :
  Forall2 (fun row row' =>
             Forall2 (fun i x => nth_error row i = Some x) idx row') V vecs ->
  length V = r -> length idx = n -> has_shape r n vecs.
Proof.
  intros Hall Hr Hn. split.
  - now rewrite <- (Forall2_length Hall).
  - clear Hr. induction Hall as [|row row' V vecs Hrow _ IH]; constructor.
    + now rewrite <- (Forall2_length Hrow).
    + exact IH.
Qed.

End ShapeFacts.

(** X6.  With [n >= 2] degrees of freedom, a Cholesky factor and its inverse
    of shape [n] by [n], a stiffness matrix of the same shape and an
    eigensolver that returns [n] eigenvalues and an [n] by [n] eigenvector
    array, no matrix product raises: the function returns [n] eigenvalues, a
    permutation of the raw ones, and [P], [S] and [Sinv] of shape [n] by
    [n]. *)
Theorem modes_returns_square (F : Type) (SF : Scalar F)
  (la_eig : matrix F -> option (matrix F) -> result (list complex * matrix F))
  (argsort : list Q -> list nat)
  (la_cholesky : matrix F -> bool -> result (matrix F))
  (la_inv : matrix F -> result (matrix F))
  (M K L Linv : matrix F) (n : nat)
  (evalues : list complex) (evectors : matrix F) :
  (forall keys, is_argsort keys (argsort keys)) ->
  2 <= n ->
  has_shape n n K ->
  la_cholesky M false = Ok L ->
  la_inv L = Ok Linv ->
  has_shape n n Linv ->
  (forall LinvK W,
     matmul Linv K = Ok LinvK -> matmul LinvK (transpose Linv) = Ok W ->
     la_eig W None = Ok (evalues, evectors)) ->
  length evalues = n ->
  has_shape n n evectors ->
  exists lam P S Sinv,
    modes_system_undamped la_eig argsort la_cholesky la_inv M K
      = Ok (lam, P, S, Sinv) /\
    Permutation lam evalues /\
    length lam = n /\
    has_shape n n P /\ has_shape n n S /\ has_shape n n Sinv.
Proof.
  intros Hsort Hn HK HL HLinv HLinv_shape Heig Hlen HV.
  destruct (matmul_shape n n n Linv K HLinv_shape HK ltac:(lia))
    as (LinvK & HLK & HLK_shape).
  destruct (matmul_shape n n n LinvK (transpose Linv) HLK_shape
              (transpose_shape n n Linv HLinv_shape ltac:(lia)) ltac:(lia))
    as (W & HW & _).
  specialize (Heig LinvK W HLK HW).
  destruct (eigen_sort_spec F argsort Hsort n evalues evectors Hlen (proj2 HV))
    as (P & Hrun & _ & Hall).
  assert (Hperm : Permutation (eigen_index argsort evalues) (seq 0 n)).
  { rewrite <- Hlen. apply eigen_index_perm; [exact Hsort|left; lia]. }
  assert (Hidx_len : length (eigen_index argsort evalues) = n)
    by (rewrite (Permutation_length Hperm); apply length_seq).
  assert (HP : has_shape n n P)
    by (apply (reindexed_shape evectors P _ n n Hall (proj1 HV) Hidx_len)).
  destruct (matmul_shape n n n Linv P HLinv_shape HP ltac:(lia))
    as (S & HS & HS_shape).
  destruct (matmul_shape n n n (transpose P) Linv
              (transpose_shape n n P HP ltac:(lia)) HLinv_shape ltac:(lia))
    as (Sinv & HSinv & HSinv_shape).
  exists (map (fun i => nth i evalues (mkC 0 0)) (eigen_index argsort evalues)),
    P, S, Sinv.
  split.
  - apply (modes_steps F SF la_eig argsort la_cholesky la_inv
             M K L Linv LinvK W P S Sinv _ HL HLinv HLK HW); try assumption.
    now rewrite (eigen_unfold F la_eig argsort W None _ _ Heig).
  - split; [|split; [now rewrite length_map|]];
      [|split; [exact HP|split; [exact HS_shape|exact HSinv_shape]]].
    rewrite (Permutation_map (fun i => nth i evalues (mkC 0 0)) Hperm).
    rewrite <- Hlen. now rewrite map_nth_seq_id.
Qed.

Lemma modes_returns_square_witness :
  exists lam P S Sinv,
    modes_system_undamped
      (eig_answer_at [[1; 0]; [0; 2]]%Q ([real 1; real 2], eye 2 2))
      argsort_insertion
      (cholesky_answer_at [[4; 0]; [0; 4]]%Q [[2; 0]; [0; 2]]%Q)
      (answer_at [[2; 0]; [0; 2]]%Q [[1 # 2; 0]; [0; 1 # 2]]%Q)
      [[4; 0]; [0; 4]]%Q [[4; 0]; [0; 8]]%Q
      = Ok (lam, P, S, Sinv) /\
    Permutation lam [real 1; real 2] /\
    length lam = 2 /\
    has_shape 2 2 P /\ has_shape 2 2 S /\ has_shape 2 2 Sinv.
Proof.
  apply (modes_returns_square Q Scalar_Q
           (eig_answer_at [[1; 0]; [0; 2]]%Q ([real 1; real 2], eye 2 2))
           argsort_insertion
           (cholesky_answer_at [[4; 0]; [0; 4]]%Q [[2; 0]; [0; 2]]%Q)
           (answer_at [[2; 0]; [0; 2]]%Q [[1 # 2; 0]; [0; 1 # 2]]%Q)
           [[4; 0]; [0; 4]]%Q [[4; 0]; [0; 8]]%Q
           [[2; 0]; [0; 2]]%Q [[1 # 2; 0]; [0; 1 # 2]]%Q 2
           [real 1; real 2] (eye 2 2)).
  - exact argsort_insertion_ok.
  - lia.
  - split; [reflexivity|]. repeat constructor.
  - reflexivity.
  - reflexivity.
  - split; [reflexivity|]. repeat constructor.
  - intros LinvK W HLK HW. vm_compute in HLK. injection HLK as <-.
    vm_compute in HW. injection HW as <-. reflexivity.
  - reflexivity.
  - split; [reflexivity|]. repeat constructor.
Defined.

(** X7.  A stiffness matrix whose shape differs from that of the inverse
    Cholesky factor makes one of the two whitening products raise
    [ValueError]; the eigensolver is not reached. *)
Theorem modes_stiffness_shape_mismatch (F : Type) (SF : Scalar F)
  (la_eig : matrix F -> option (matrix F) -> result (list complex * matrix F))
  (argsort : list Q -> list nat)
  (la_cholesky : matrix F -> bool -> result (matrix F))
  (la_inv : matrix F -> result (matrix F))
  (M K L Linv : matrix F) (n r c : nat) :
  1 <= n ->
  la_cholesky M false = Ok L ->
  la_inv L = Ok Linv ->
  has_shape n n Linv ->
  has_shape r c K ->
  r <> n \/ c <> n ->
  modes_system_undamped la_eig argsort la_cholesky la_inv M K
    = Raise ValueError.
Proof.
  intros Hn HL HLinv HLinv_shape HK Hne.
  unfold modes_system_undamped, modes_body.
  rewrite HL. cbn [bind]. rewrite HLinv. cbn [bind].
  destruct (Nat.eq_dec r n) as [->|Hr].
  - destruct Hne as [Hne|Hc]; [congruence|].
    destruct (matmul_shape n n c Linv K HLinv_shape HK Hn)
      as (LinvK & HLK & HLK_shape).
    rewrite HLK. cbn [bind].
    rewrite (matmul_mismatch n c LinvK (transpose Linv) HLK_shape Hn);
      [reflexivity|].
    rewrite (proj1 (transpose_shape n n Linv HLinv_shape Hn)). congruence.
  - rewrite (matmul_mismatch n n Linv K HLinv_shape Hn); [reflexivity|].
    rewrite (proj1 HK). exact Hr.
Qed.

Lemma modes_stiffness_shape_mismatch_witness :
  modes_system_undamped
    (eig_answer_at [[1; 0]; [0; 2]]%Q ([real 1; real 2], eye 2 2))
    argsort_insertion
    (cholesky_answer_at [[4; 0]; [0; 4]]%Q [[2; 0]; [0; 2]]%Q)
    (answer_at [[2; 0]; [0; 2]]%Q [[1 # 2; 0]; [0; 1 # 2]]%Q)
    [[4; 0]; [0; 4]]%Q [[1; 2; 3]; [4; 5; 6]]%Q
    = Raise ValueError.
Proof.
  apply (modes_stiffness_shape_mismatch Q Scalar_Q
           (eig_answer_at [[1; 0]; [0; 2]]%Q ([real 1; real 2], eye 2 2))
           argsort_insertion
           (cholesky_answer_at [[4; 0]; [0; 4]]%Q [[2; 0]; [0; 2]]%Q)
           (answer_at [[2; 0]; [0; 2]]%Q [[1 # 2; 0]; [0; 1 # 2]]%Q)
           [[4; 0]; [0; 4]]%Q [[1; 2; 3]; [4; 5; 6]]%Q
           [[2; 0]; [0; 2]]%Q [[1 # 2; 0]; [0; 1 # 2]]%Q 2 2 3).
  - lia.
  - reflexivity.
  - reflexivity.
  - split; [reflexivity|]. repeat constructor.
  - split; [reflexivity|]. repeat constructor.
  - right. lia.
Defined.

(** ** [response_system_undamped]: horizons without a trajectory *)

(** X8.  Below [max_time = 0.008] the call never returns, and the
    exception follows from the binary64 product [p = 250 * max_time]:
    [OverflowError] from [int] when [p] is infinite, [ValueError] from
    [linspace] when [p <= -1] (a negative sample count), and [IndexError]
    from [t[1]] otherwise (a count of [0] or [1], since [int] truncates
    toward zero). *)
Theorem response_error_kinds (la_pinv la_expm : matrix Q -> result (matrix Q))
  (M K : matrix Q) (x0 v0 : list Q) (max_time : binary64) :
  (B2Q max_time < 8 # 1000)%Q ->
  response_system_undamped la_pinv la_expm M K x0 v0 max_time =
    Raise (match float_mul 250 (B2Q max_time) with
           | Infinite _ => OverflowError
           | Finite p => if Qle_bool p (-1) then ValueError else IndexError
           end).
Proof.
  intros Hlt.
  destruct (Qlt_le_dec 0 (B2Q max_time)) as [Hpos|Hle].
  - destruct (float_mul_short max_time Hpos Hlt) as (p & Hp & Hge & Hlt2).
    rewrite Hp.
    rewrite (response_unfold la_pinv la_expm M K x0 v0 max_time (int_of_Q p)
               (sample_count_finite max_time p Hp)).
    destruct (int_of_Q_bounds p 2 Hge Hlt2) as [Hnum0 Hnum2].
    rewrite (response_aborts la_pinv la_expm M K x0 v0 (B2Q max_time)
               (int_of_Q p) Hnum2).
    rewrite (proj2 (Z.ltb_ge (int_of_Q p) 0)) by lia.
    destruct (Qle_bool p (-1)) eqn:E; [|reflexivity].
    apply Qle_bool_iff in E. lra.
  - destruct (float_mul 250 (B2Q max_time)) as [p|s] eqn:Hp.
    + rewrite (response_unfold la_pinv la_expm M K x0 v0 max_time (int_of_Q p)
                 (sample_count_finite max_time p Hp)).
      assert (Hp0 := float_mul_nonpos max_time p Hle Hp).
      assert (Hnum := int_of_Q_nonpos p Hp0).
      rewrite (response_aborts la_pinv la_expm M K x0 v0 (B2Q max_time)
                 (int_of_Q p)) by lia.
      destruct (Z.ltb_spec (int_of_Q p) 0) as [Hneg|Hnn].
      * apply int_of_Q_negative_iff in Hneg.
        now rewrite (proj2 (Qle_bool_iff _ _) Hneg).
      * destruct (Qle_bool p (-1)) eqn:E; [|reflexivity].
        apply Qle_bool_iff, int_of_Q_negative_iff in E. lia.
    + apply response_overflow. exact (sample_count_infinite max_time s Hp).
Qed.

Lemma response_error_kinds_witness :
  response_system_undamped pinv_identity expm_square_zero
    [[1; 0]; [0; 1]]%Q [[0; 0]; [0; 0]]%Q [1; 2]%Q [3; 4]%Q double_m1e308
  = Raise (match float_mul 250 (B2Q double_m1e308) with
           | Infinite _ => OverflowError
           | Finite p => if Qle_bool p (-1) then ValueError else IndexError
           end).
Proof.
  apply (response_error_kinds pinv_identity expm_square_zero
           [[1; 0]; [0; 1]]%Q [[0; 0]; [0; 0]]%Q [1; 2]%Q [3; 4]%Q
           double_m1e308).
  reflexivity.
Defined.

(** The three exceptions on three doubles: [-1e308], [-0.01] and the
    largest double below [0.008]. *)
Lemma response_error_examples :
  let run := response_system_undamped pinv_identity expm_square_zero
               [[1; 0]; [0; 1]]%Q [[0; 0]; [0; 0]]%Q [1; 2]%Q [3; 4]%Q in
  run double_m1e308 = Raise OverflowError /\
  run double_m0_01 = Raise ValueError /\
  run double_below_0_008 = Raise IndexError.
Proof.
  cbv zeta. repeat split; vm_compute; reflexivity.
Qed.

(** ** [response_system_undamped]: the time step *)

(** X9.  For a grid of fewer than [2 ^ 53] samples, the step
    [dt = t[1] - t[0]] that discretises the system is
    [max_time / (sample_count - 1)] for the sample count
    [int(250 * max_time)] of the call, and it is strictly larger than the
    nominal [1/250]: rounding the product moves it by at most one half, and
    the grid has one interval fewer than samples. *)
Theorem response_time_step (la_pinv la_expm : matrix Q -> result (matrix Q))
  (M K Mp : matrix Q) (x0 v0 : list Q) (max_time : binary64) (num : Z)
  (n : nat) :
  length M = n ->
  has_shape n n K ->
  length x0 = n ->
  length v0 = n ->
  la_pinv M = Ok Mp ->
  has_shape n n Mp ->
  (forall t, linspace 0 (B2Q max_time) num = Ok t ->
     exists Ad,
       la_expm (mscale (block2x2 (zeros n n) (eye n n)
                                 (mprod (mopp Mp) K) (zeros n n))
                       (nth 1 t 0 - nth 0 t 0)%Q) = Ok Ad /\
       has_shape (2 * n) (2 * n) Ad) ->
  sample_count max_time = Ok num ->
  (2 <= num)%Z ->
  (250 * B2Q max_time < pow2 53)%Q ->
  exists t X,
    response_system_undamped la_pinv la_expm M K x0 v0 max_time = Ok (t, X) /\
    (nth 1 t 0 - nth 0 t 0 == B2Q max_time / inject_Z (num - 1))%Q /\
    (1 # 250 < nth 1 t 0 - nth 0 t 0)%Q.
Proof.
  intros HM HK Hx0 Hv0 Hpinv HMp Hexpm Hnum Hcount Hmod.
  destruct (response_run la_pinv la_expm M K Mp x0 v0 (B2Q max_time) num n
              HM HK Hx0 Hv0 Hpinv HMp Hexpm Hcount)
    as (t & X & Ad & Hrun & Ht & _).
  rewrite <- (response_unfold la_pinv la_expm M K x0 v0 max_time num Hnum)
    in Hrun.
  destruct (linspace_grid (B2Q max_time) num Hcount)
    as (t' & Ht' & Hlen & Hnth & _).
  assert (t' = t) by congruence. subst t'.
  assert (Hdt := grid_spacing t (B2Q max_time) num 0 Hnth ltac:(lia)).
  simpl (0 + 1) in Hdt.
  exists t, X. split; [exact Hrun|]. split; [exact Hdt|].
  rewrite Hdt.
  assert (Hpos := sample_count_two_positive max_time num Hnum Hcount).
  destruct (float_mul_moderate max_time Hpos Hmod) as (p & Hp & Hge & Hle).
  assert (Hnum' := sample_count_finite max_time p Hp).
  assert (num = int_of_Q p) by congruence. subst num.
  assert (Htrunc := int_of_Q_le p Hge).
  assert (Hpred : (inject_Z (int_of_Q p - 1) == inject_Z (int_of_Q p) - 1)%Q).
  { unfold Z.sub. rewrite inject_Z_plus. reflexivity. }
  apply Qlt_shift_div_l.
  - rewrite Hpred.
    assert (H2 : (inject_Z 2 <= inject_Z (int_of_Q p))%Q)
      by (rewrite <- Zle_Qle; exact Hcount).
    change (inject_Z 2) with 2%Q in H2. lra.
  - rewrite Hpred. lra.
Qed.

Lemma response_time_step_witness :
  exists t X,
    response_system_undamped pinv_identity expm_square_zero
      [[1; 0]; [0; 1]]%Q [[0; 0]; [0; 0]]%Q [1; 2]%Q [3; 4]%Q double_0_036
      = Ok (t, X) /\
    (nth 1 t 0 - nth 0 t 0 == B2Q double_0_036 / inject_Z (9 - 1))%Q /\
    (1 # 250 < nth 1 t 0 - nth 0 t 0)%Q.
Proof.
  apply (response_time_step pinv_identity expm_square_zero
           [[1; 0]; [0; 1]]%Q [[0; 0]; [0; 0]]%Q [[1; 0]; [0; 1]]%Q
           [1; 2]%Q [3; 4]%Q double_0_036 9 2).
  - reflexivity.
  - split; [reflexivity|repeat constructor].
  - reflexivity.
  - reflexivity.
  - reflexivity.
  - split; [reflexivity|repeat constructor].
  - intros t Ht. vm_compute in Ht. injection Ht as <-.
    eexists. split; [vm_compute; reflexivity|].
    split; [reflexivity|repeat constructor].
  - vm_compute. reflexivity.
  - lia.
  - reflexivity.
Defined.

(** ** [response_system_undamped]: the initial state *)

Lemma set_col_broadcast (X : matrix Q) (r N j : nat) (c : Q) :
  has_shape r N X -> j < N -> r <> 1 ->
  let X' := map (fun row => set_nth row j c) X in
  set_col X j [c] = Ok X' /\ has_shape r N X' /\ column X' j = repeat c r.
Proof.
  intros [Hr Hrows] Hj Hne. cbv zeta.
  assert (Hin : forallb (fun row => Nat.ltb j (length row)) X = true).
  { apply forallb_forall. intros row Hrow. apply Nat.ltb_lt.
    rewrite Forall_forall in Hrows. now rewrite (Hrows row Hrow). }
  split; [|split].
  - unfold set_col. rewrite Hin. cbn [negb length].
    rewrite (proj2 (Nat.eqb_neq 1 (length X))) by lia. reflexivity.
  - split; [now rewrite length_map|].
    rewrite Forall_map. eapply Forall_impl; [|exact Hrows].
    cbv beta. intros row Hrow. rewrite set_nth_length; lia.
  - subst r. clear Hne Hin. unfold column.
    induction Hrows as [|row X Hrow _ IH]; cbn [map length repeat];
      [reflexivity|].
    rewrite nth_set_nth_eq by lia. now rewrite IH.
Qed.

Lemma set_col_wrong_length (X : matrix Q) (r N j : nat) (v : list Q) :
  has_shape r N X -> j < N -> length v <> r -> length v <> 1 ->
  set_col X j v = Raise ValueError.
Proof.
  intros [Hr Hrows] Hj Hne Hne1.
  assert (Hin : forallb (fun row => Nat.ltb j (length row)) X = true).
  { apply forallb_forall. intros row Hrow. apply Nat.ltb_lt.
    rewrite Forall_forall in Hrows. now rewrite (Hrows row Hrow). }
  unfold set_col. rewrite Hin. cbn [negb].
  rewrite (proj2 (Nat.eqb_neq (length v) (length X))) by lia.
  now rewrite (proj2 (Nat.eqb_neq (length v) 1)) by lia.
Qed.

(** The run from the assignment of the first column on, for any array that
    the assignment produces. *)
Lemma response_run_from (la_pinv la_expm : matrix Q -> result (matrix Q))
  (M K Mp : matrix Q) (x0 v0 x : list Q) (max_time : Q) (num : Z) (n : nat) :
  length M = n ->
  has_shape n n K ->
  la_pinv M = Ok Mp ->
  has_shape n n Mp ->
  length x = 2 * n ->
  (forall N, 0 < N ->
     exists X0, set_col (zeros (2 * n) N) 0 (x0 ++ v0) = Ok X0 /\
                has_shape (2 * n) N X0 /\ column X0 0 = x) ->
  (forall t, linspace 0 max_time num = Ok t ->
     exists Ad,
       la_expm (mscale (block2x2 (zeros n n) (eye n n)
                                 (mprod (mopp Mp) K) (zeros n n))
                       (nth 1 t 0 - nth 0 t 0)%Q) = Ok Ad /\
       has_shape (2 * n) (2 * n) Ad) ->
  (2 <= num)%Z ->
  exists t X Ad,
    response_on_grid la_pinv la_expm M K x0 v0 max_time num = Ok (t, X) /\
    2 <= length t /\
    la_expm (mscale (block2x2 (zeros n n) (eye n n)
                              (mprod (mopp Mp) K) (zeros n n))
                    (nth 1 t 0 - nth 0 t 0)%Q) = Ok Ad /\
    columns_upto Ad x (2 * n) (length t) (length t - 1) X.
Proof.
  intros HM HK Hpinv HMp Hx Hassign Hexpm Hcount.
  destruct (linspace_grid max_time num Hcount) as (t & Ht & Hlen & _).
  destruct (Hexpm t Ht) as (Ad & HAd & HAd_shape).
  destruct (state_matrix_ok la_pinv M K Mp n HM HK Hpinv HMp) as [HA _].
  assert (HN : 2 <= length t) by lia.
  destruct (Hassign (length t) ltac:(lia)) as (X0 & Hset & HX0 & Hcol0).
  assert (Hinit : columns_upto Ad x (2 * n) (length t) 0 X0).
  { split; [exact HX0|]. intros j Hj. replace j with 0 by lia. exact Hcol0. }
  destruct (for_each_step_column Ad x (2 * n) (length t)
              HAd_shape Hx (length t - 1) 0 _ ltac:(lia) Hinit)
    as (X & Hloop & Hinv).
  exists t, X, Ad.
  split; [|split; [exact HN|split; [exact HAd|exact Hinv]]].
  unfold response_on_grid.
  rewrite Ht. cbn [bind].
  rewrite (getitem_nth t 1 0%Q) by lia. cbn [bind].
  rewrite (getitem_nth t 0 0%Q) by lia. cbn [bind].
  rewrite HA. cbn [bind]. unfold nrows. rewrite HM, Hset. cbn [bind].
  rewrite HAd. cbn [bind]. now rewrite Hloop.
Qed.

(** X10.  An initial state of a single number is not rejected: the
    assignment of the first column broadcasts it, and the trajectory is the
    one that starts with that number in all [2 n] state entries. *)
Theorem response_initial_broadcast
  (la_pinv la_expm : matrix Q -> result (matrix Q))
  (M K Mp : matrix Q) (x0 v0 : list Q) (c : Q) (max_time : binary64)
  (num : Z) (n : nat) :
  length M = n ->
  has_shape n n K ->
  x0 ++ v0 = [c] ->
  la_pinv M = Ok Mp ->
  has_shape n n Mp ->
  (forall t, linspace 0 (B2Q max_time) num = Ok t ->
     exists Ad,
       la_expm (mscale (block2x2 (zeros n n) (eye n n)
                                 (mprod (mopp Mp) K) (zeros n n))
                       (nth 1 t 0 - nth 0 t 0)%Q) = Ok Ad /\
       has_shape (2 * n) (2 * n) Ad) ->
  sample_count max_time = Ok num ->
  (2 <= num)%Z ->
  exists t X Ad,
    response_system_undamped la_pinv la_expm M K x0 v0 max_time = Ok (t, X) /\
    la_expm (mscale (block2x2 (zeros n n) (eye n n)
                              (mprod (mopp Mp) K) (zeros n n))
                    (nth 1 t 0 - nth 0 t 0)%Q) = Ok Ad /\
    get_col X 0 = Ok (repeat c (2 * n)) /\
    forall k, k < length t ->
      get_col X k = Ok (apply_times Ad k (repeat c (2 * n))).
Proof.
  intros HM HK Hone Hpinv HMp Hexpm Hnum Hcount.
  destruct (response_run_from la_pinv la_expm M K Mp x0 v0
              (repeat c (2 * n)) (B2Q max_time) num n HM HK Hpinv HMp)
    as (t & X & Ad & Hrun & HN & HAd & Hshape & Hcols); try assumption.
  { apply repeat_length. }
  { intros N HN. rewrite Hone.
    destruct (set_col_broadcast (zeros (2 * n) N) (2 * n) N 0 c
                (zeros_shape (2 * n) N) HN ltac:(lia)) as (Hset & Hsh & Hcol).
    eexists. split; [exact Hset|]. split; [exact Hsh|exact Hcol]. }
  rewrite <- (response_unfold la_pinv la_expm M K x0 v0 max_time num Hnum)
    in Hrun.
  assert (Hget : forall k, k < length t ->
            get_col X k = Ok (apply_times Ad k (repeat c (2 * n)))).
  { intros k Hk.
    rewrite (get_col_ok X (2 * n) (length t) k Hshape Hk).
    now rewrite (Hcols k) by lia. }
  exists t, X, Ad. split; [exact Hrun|]. split; [exact HAd|].
  split; [|exact Hget].
  apply (Hget 0). lia.
Qed.

Lemma response_initial_broadcast_witness :
  exists t X Ad,
    response_system_undamped pinv_identity expm_square_zero
      [[1; 0]; [0; 1]]%Q [[0; 0]; [0; 0]]%Q [5]%Q [] double_0_015
      = Ok (t, X) /\
    expm_square_zero
      (mscale (block2x2 (zeros 2 2) (eye 2 2)
                 (mprod (mopp [[1; 0]; [0; 1]]%Q) [[0; 0]; [0; 0]]%Q)
                 (zeros 2 2))
              (nth 1 t 0 - nth 0 t 0)%Q) = Ok Ad /\
    get_col X 0 = Ok (repeat 5%Q (2 * 2)) /\
    forall k, k < length t ->
      get_col X k = Ok (apply_times Ad k (repeat 5%Q (2 * 2))).
Proof.
  apply (response_initial_broadcast pinv_identity expm_square_zero
           [[1; 0]; [0; 1]]%Q [[0; 0]; [0; 0]]%Q [[1; 0]; [0; 1]]%Q
           [5]%Q [] 5%Q double_0_015 3 2).
  - reflexivity.
  - split; [reflexivity|repeat constructor].
  - reflexivity.
  - reflexivity.
  - split; [reflexivity|repeat constructor].
  - intros t Ht. vm_compute in Ht. injection Ht as <-.
    eexists. split; [vm_compute; reflexivity|].
    split; [reflexivity|repeat constructor].
  - vm_compute. reflexivity.
  - lia.
Defined.

(** X11.  An initial state [[x0; v0]] whose length is neither [2 n] nor [1]
    is rejected with [ValueError] when it is assigned to the first column,
    after the time grid and the state matrix have been built and before the
    exponential is computed. *)
Theorem response_initial_wrong_length
  (la_pinv la_expm : matrix Q -> result (matrix Q))
  (M K Mp : matrix Q) (x0 v0 : list Q) (max_time : binary64) (num : Z)
  (n : nat) :
  length M = n ->
  has_shape n n K ->
  la_pinv M = Ok Mp ->
  has_shape n n Mp ->
  sample_count max_time = Ok num ->
  (2 <= num)%Z ->
  length x0 + length v0 <> 2 * n ->
  length x0 + length v0 <> 1 ->
  response_system_undamped la_pinv la_expm M K x0 v0 max_time
    = Raise ValueError.
Proof.
  intros HM HK Hpinv HMp Hnum Hcount Hlen2 Hlen1.
  destruct (linspace_grid (B2Q max_time) num Hcount) as (t & Ht & Hlen & _).
  destruct (state_matrix_ok la_pinv M K Mp n HM HK Hpinv HMp) as [HA _].
  rewrite (response_unfold la_pinv la_expm M K x0 v0 max_time num Hnum).
  unfold response_on_grid.
  rewrite Ht. cbn [bind].
  rewrite (getitem_nth t 1 0%Q) by lia. cbn [bind].
  rewrite (getitem_nth t 0 0%Q) by lia. cbn [bind].
  rewrite HA. cbn [bind]. unfold nrows. rewrite HM.
  rewrite (set_col_wrong_length (zeros (2 * n) (length t)) (2 * n) (length t) 0
             (x0 ++ v0) (zeros_shape (2 * n) (length t)));
    [reflexivity|lia|rewrite length_app; exact Hlen2
    |rewrite length_app; exact Hlen1].
Qed.

Lemma response_initial_wrong_length_witness :
  response_system_undamped pinv_identity expm_square_zero
    [[1; 0]; [0; 1]]%Q [[0; 0]; [0; 0]]%Q [1; 2]%Q [3]%Q double_0_015
  = Raise ValueError.
Proof.
  apply (response_initial_wrong_length pinv_identity expm_square_zero
           [[1; 0]; [0; 1]]%Q [[0; 0]; [0; 0]]%Q [[1; 0]; [0; 1]]%Q
           [1; 2]%Q [3]%Q double_0_015 3 2).
  - reflexivity.
  - split; [reflexivity|repeat constructor].
  - reflexivity.
  - split; [reflexivity|repeat constructor].
  - vm_compute. reflexivity.
  - lia.
  - simpl. lia.
  - simpl. lia.
Defined.

(** ** [response_system_undamped]: the system at rest *)

Lemma dot_zero_r (row x : list Q) :
  Forall (fun q => (q == 0)%Q) x -> (dot row x == 0)%Q.
Proof.
  intros Hx. revert row. induction Hx as [|b x Hb _ IH]; intros [|a row];
    unfold dot in *; simpl; try reflexivity.
  rewrite (IH row), Hb. ring.
Qed.

Lemma apply_times_zero (Ad : matrix Q) (k : nat) (x : list Q) :
  Forall (fun q => (q == 0)%Q) x ->
  Forall (fun q => (q == 0)%Q) (apply_times Ad k x).
Proof.
  intros Hx. induction k as [|k IH]; simpl.
  - exact Hx.
  - rewrite Forall_map. apply Forall_forall. intros row _.
    now apply dot_zero_r.
Qed.

(** X12.  A system released at rest in the origin stays there: when all
    entries of [x0] and [v0] are zero, all entries of every column of the
    trajectory are zero, whatever [M], [K] and the matrix that [expm]
    returns. *)
Theorem response_rest_stays_at_rest
  (la_pinv la_expm : matrix Q -> result (matrix Q))
  (M K Mp : matrix Q) (x0 v0 : list Q) (max_time : binary64) (num : Z)
  (n : nat) :
  length M = n ->
  has_shape n n K ->
  length x0 = n ->
  length v0 = n ->
  la_pinv M = Ok Mp ->
  has_shape n n Mp ->
  (forall t, linspace 0 (B2Q max_time) num = Ok t ->
     exists Ad,
       la_expm (mscale (block2x2 (zeros n n) (eye n n)
                                 (mprod (mopp Mp) K) (zeros n n))
                       (nth 1 t 0 - nth 0 t 0)%Q) = Ok Ad /\
       has_shape (2 * n) (2 * n) Ad) ->
  sample_count max_time = Ok num ->
  (2 <= num)%Z ->
  Forall (fun q => (q == 0)%Q) x0 ->
  Forall (fun q => (q == 0)%Q) v0 ->
  exists t X,
    response_system_undamped la_pinv la_expm M K x0 v0 max_time = Ok (t, X) /\
    forall k, k < length t ->
      exists col, get_col X k = Ok col /\
                  length col = 2 * n /\
                  Forall (fun q => (q == 0)%Q) col.
Proof.
  intros HM HK Hx0 Hv0 Hpinv HMp Hexpm Hnum Hcount Hzx Hzv.
  destruct (response_run la_pinv la_expm M K Mp x0 v0 (B2Q max_time) num n
              HM HK Hx0 Hv0 Hpinv HMp Hexpm Hcount)
    as (t & X & Ad & Hrun & Ht & HAd & Hshape & Hcols).
  rewrite <- (response_unfold la_pinv la_expm M K x0 v0 max_time num Hnum)
    in Hrun.
  exists t, X. split; [exact Hrun|].
  intros k Hk. exists (apply_times Ad k (x0 ++ v0)).
  split; [|split].
  - rewrite (get_col_ok X (2 * n) (length t) k Hshape Hk).
    now rewrite (Hcols k) by lia.
  - rewrite <- (Hcols k) by lia. rewrite column_length. apply Hshape.
  - apply apply_times_zero. apply Forall_app. now split.
Qed.

Lemma response_rest_stays_at_rest_witness :
  exists t X,
    response_system_undamped pinv_identity expm_square_zero
      [[1; 0]; [0; 1]]%Q [[0; 0]; [0; 0]]%Q [0; 0]%Q [0; 0]%Q double_0_015
      = Ok (t, X) /\
    forall k, k < length t ->
      exists col, get_col X k = Ok col /\
                  length col = 2 * 2 /\
                  Forall (fun q => (q == 0)%Q) col.
Proof.
  apply (response_rest_stays_at_rest pinv_identity expm_square_zero
           [[1; 0]; [0; 1]]%Q [[0; 0]; [0; 0]]%Q [[1; 0]; [0; 1]]%Q
           [0; 0]%Q [0; 0]%Q double_0_015 3 2).
  - reflexivity.
  - split; [reflexivity|repeat constructor].
  - reflexivity.
  - reflexivity.
  - reflexivity.
  - split; [reflexivity|repeat constructor].
  - intros t Ht. vm_compute in Ht. injection Ht as <-.
    eexists. split; [vm_compute; reflexivity|].
    split; [reflexivity|repeat constructor].
  - vm_compute. reflexivity.
  - lia.
  - repeat constructor.
  - repeat constructor.
Defined.
